(** * libsql HTTP driver: rows, parameters and connection

    A shallow embedding of [libsql/internal/http/driver.go]: the row cursor
    ([rows.Columns], [rows.Next]), the exec summary ([result]), parameter
    normalisation ([convertArgs]) and the connection entry points
    ([Prepare], [Begin], [ExecContext], [QueryContext]).

    Go values of interface type [any] are a closed sum ([value]); float64 is
    the IEEE-754 binary64 instance of [spec_float]; a slice is a list
    together with its nil-ness; a run-time panic is an explicit outcome. *)

From Stdlib Require Import ZArith Lia Bool String Ascii.
From Stdlib Require Import Floats.SpecFloat.
From stdpp Require Import base tactics option list sorting strings.

Local Open Scope Z_scope.

(** ** float64 *)

Module Float64.

Definition prec : Z := 53.
Definition emax : Z := 1024.

Definition float64 : Type := spec_float.

Definition valid (f : float64) : bool := valid_binary prec emax f.

Definition pos_zero : float64 := S754_zero false.
Definition neg_zero : float64 := S754_zero true.
Definition one : float64 := S754_finite false 4503599627370496 (-52).

(** Go's [x >= y] and [x < y] on float64: false whenever a NaN is involved. *)
Definition f64_ge (x y : float64) : bool := SFleb y x.
Definition f64_lt (x y : float64) : bool := SFltb x y.

(** The canonical binary64 representation of [(-1)^s * m * 2^e], for a
    magnitude that is exactly representable (no rounding takes place). *)
Definition exact (s : bool) (m : positive) (e : Z) : float64 :=
  let '(mz, ez) := shl_align m e (fexp prec emax (Zpos (digits2_pos m) + e)) in
  S754_finite s mz ez.

(** [math.Mod(x, y)]: the floating-point remainder of [x/y]; its magnitude
    is less than [y] and its sign agrees with that of [x].  Special cases:
    Mod(+-Inf, y) = NaN, Mod(NaN, y) = NaN, Mod(x, 0) = NaN,
    Mod(x, +-Inf) = x, Mod(x, NaN) = NaN.  The remainder of two binary64
    numbers is a binary64 number, so the result is exact. *)
Definition Mod (x y : float64) : float64 :=
  match x, y with
  | S754_nan, _ | _, S754_nan => S754_nan
  | S754_infinity _, _ => S754_nan
  | _, S754_zero _ => S754_nan
  | _, S754_infinity _ => x
  | S754_zero _, S754_finite _ _ _ => x
  | S754_finite sx mx ex, S754_finite _ my ey =>
      let ez := Z.min ex ey in
      let X := Zpos (fst (shl_align mx ex ez)) in
      let Y := Zpos (fst (shl_align my ey ez)) in
      match Z.rem X Y with
      | Zpos r => exact sx r ez
      | _ => S754_zero sx
      end
  end.

(** The integer part of a finite float, fraction discarded (towards zero). *)
Definition trunc (f : float64) : option Z :=
  match f with
  | S754_zero _ => Some 0
  | S754_finite s m e => Some (cond_Zopp s (Z.shiftl (Zpos m) e))
  | S754_infinity _ | S754_nan => None
  end.

Definition min_int64 : Z := - 2 ^ 63.
Definition max_int64 : Z := 2 ^ 63 - 1.

Definition fits_int64 (z : Z) : bool := (min_int64 <=? z) && (z <=? max_int64).

(** Go's conversion [int64(f)] of a float64: the fraction is discarded; when
    the result does not fit (or [f] is not finite) the conversion still
    succeeds with an implementation-dependent value, [indefinite f]. *)
Definition to_int64 (indefinite : float64 -> Z) (f : float64) : Z :=
  match trunc f with
  | Some t => if fits_int64 t then t else indefinite f
  | None => indefinite f
  end.

(** What amd64 produces for an out-of-range conversion. *)
Definition indefinite_amd64 (_ : float64) : Z := min_int64.

(** Some binary64 numbers: 42.0, 3.14, -0.5, -3.0, -2.75 and 1e300. *)
Definition f_42 : float64 := S754_finite false 5910974510923776 (-47).
Definition f_3_14 : float64 := S754_finite false 7070651414971679 (-51).
Definition f_m0_5 : float64 := S754_finite true 4503599627370496 (-53).
Definition f_m3 : float64 := S754_finite true 6755399441055744 (-51).
Definition f_m2_75 : float64 := S754_finite true 6192449487634432 (-51).
Definition f_1e300 : float64 := S754_finite false 6724873095247260 944.

End Float64.

Import Float64.

(** ** Go values, slices, errors and panics *)

(** A value of interface type [any] / [driver.Value].  The six cell kinds of
    the wire format are listed; [VOther] stands for a value of any other
    dynamic type, given by its type name and printed form. *)
Inductive value : Type :=
  | VNil
  | VInt64 (v : Z)
  | VFloat64 (v : float64)
  | VBool (v : bool)
  | VString (v : string)
  | VBytes (v : list Byte.byte)
  | VOther (type_name : string) (repr : string).

(** A slice is either nil or a (possibly empty) sequence of elements. *)
Definition slice (A : Type) : Type := option (list A).

Module Slice.
Section Ops.
Context {A : Type}.

Definition nil : slice A := None.
Definition elems (s : slice A) : list A := default [] s.
Definition len (s : slice A) : nat := length (elems s).
(** [append(s, x)] always yields a non-nil slice. *)
Definition append (s : slice A) (x : A) : slice A := Some (elems s ++ [x]).
Definition is_nil (s : slice A) : bool :=
  match s with None => true | Some _ => false end.
End Ops.
End Slice.

(** Error values.  [io_EOF] and [context_Canceled] are the sentinel variables
    of Go's standard library; [fmt_Errorf] is an error built from a constant
    message; [transport_error] is any other failure of the RPC collaborator;
    [wrapped] is an error wrapping another one. *)
Inductive error : Type :=
  | io_EOF
  | context_Canceled
  | fmt_Errorf (msg : string)
  | transport_error (msg : string)
  | wrapped (msg : string) (cause : error).

(** [errors.Is(err, target)] for a sentinel [target]. *)
Fixpoint errors_Is (err target : error) : bool :=
  match err, target with
  | io_EOF, io_EOF => true
  | context_Canceled, context_Canceled => true
  | wrapped _ cause, _ => errors_Is cause target
  | _, _ => false
  end.

Inductive runtime_error : Type :=
  | index_out_of_range (i len : nat)
  | nil_dereference.

Inductive outcome (A : Type) : Type :=
  | Return (a : A)
  | Panic (e : runtime_error).
Arguments Return {A} a.
Arguments Panic {A} e.

(** Computations over a mutable state [St] that either return or panic; the
    state reached at a panic is kept. *)
Definition M (St A : Type) : Type := St -> outcome A * St.

Definition ret {St A} (a : A) : M St A := fun st => (Return a, st).

Definition bind {St A B} (m : M St A) (k : A -> M St B) : M St B :=
  fun st =>
    match m st with
    | (Return a, st') => k a st'
    | (Panic e, st') => (Panic e, st')
    end.

Definition panic {St A} (e : runtime_error) : M St A := fun st => (Panic e, st).

Declare Scope go_scope.
Delimit Scope go_scope with go.
Notation "x <- m ;; k" := (bind m (fun x => k))
  (at level 100, m at next level, right associativity) : go_scope.
Notation "m ;;; k" := (bind m (fun _ => k))
  (at level 100, right associativity) : go_scope.

(** [l[i]] with Go's bounds check. *)
Definition index {St A} (l : list A) (i : nat) : M St A :=
  match l !! i with
  | Some x => ret x
  | None => panic (index_out_of_range i (length l))
  end.

(** [for idx := start; idx < start + n; idx++ { body idx }] *)
Fixpoint for_range {St} (n : nat) (idx : nat) (body : nat -> M St unit) : M St unit :=
  match n with
  | O => ret tt
  | S n' => (body idx ;;; for_range n' (S idx) body)%go
  end.

(** ** result *)

Record result : Type := mkResult { id : Z; changes : Z }.

Definition LastInsertId (r : result) : Z * option error := (id r, None).
Definition RowsAffected (r : result) : Z * option error := (changes r, None).

(** ** rows *)

(** Modelled from the spec: the [resultSet] type declaration (the decoded RPC
    response) is not part of the sources at hand; the spec gives it as an
    ordered list of column names and an ordered list of rows, each row an
    ordered list of cell values. *)
Record resultSet : Type := mkResultSet {
  Columns : list string;
  Rows : list (list value)
}.

(** [result] is a pointer, [None] being the nil pointer.  [currentRowIdx] is
    a Go [int]: it starts at 0 and is only ever incremented while it differs
    from [len(r.result.Rows)], so it is a natural number within the range of
    [int], and the increment does not wrap. *)
Record rows : Type := mkRows {
  rows_result : option resultSet;
  currentRowIdx : nat
}.

(** What a call of [Next] can touch: the receiver [*r] and the elements of
    the destination slice. *)
Record next_state : Type := mkNextState {
  recv : rows;
  dest : list value
}.

Definition load_result : M next_state resultSet :=
  fun st =>
    match rows_result (recv st) with
    | Some rs => (Return rs, st)
    | None => (Panic nil_dereference, st)
    end.

Definition load_currentRowIdx : M next_state nat :=
  fun st => (Return (currentRowIdx (recv st)), st).

(** [dest[idx] = v] *)
Definition store_dest (idx : nat) (v : value) : M next_state unit :=
  fun st =>
    if decide (idx < length (dest st))%nat
    then (Return tt, mkNextState (recv st) (<[idx := v]> (dest st)))
    else (Panic (index_out_of_range idx (length (dest st))), st).

(** [r.currentRowIdx++] *)
Definition incr_currentRowIdx : M next_state unit :=
  fun st =>
    (Return tt,
     mkNextState (mkRows (rows_result (recv st)) (S (currentRowIdx (recv st)))) (dest st)).

(** [r.result.Rows[r.currentRowIdx][idx]] *)
Definition load_cell (idx : nat) : M next_state value :=
  (rs <- load_result ;;
   i <- load_currentRowIdx ;;
   row <- index (Rows rs) i ;;
   index row idx)%go.

Section Rows.

(** The platform's result for an [int64] conversion that does not fit. *)
Variable indefinite : float64 -> Z.

(** The type switch of [Next], lines 46-57. *)
Definition Next_switch (idx : nat) (value : value) : M next_state unit :=
  match value with
  | VInt64 v => store_dest idx (VInt64 v)
  | VFloat64 v =>
      if f64_ge (Mod v one) pos_zero
      then store_dest idx (VInt64 (to_int64 indefinite v))
      else store_dest idx (VFloat64 v)
  | _ => store_dest idx value
  end.

Definition Next_body (idx : nat) : M next_state unit :=
  (value <- load_cell idx ;;
   store_dest idx value ;;;
   Next_switch idx value)%go.

Definition Next : M next_state (option error) :=
  (rs <- load_result ;;
   i <- load_currentRowIdx ;;
   if decide (i = length (Rows rs))
   then ret (Some io_EOF)
   else
     row <- index (Rows rs) i ;;
     let count := length row in
     for_range count 0 Next_body ;;;
     incr_currentRowIdx ;;;
     ret None)%go.

(** [Columns()] dereferences [r.result]. *)
Definition rows_Columns (r : rows) : outcome (list string) :=
  match rows_result r with
  | Some rs => Return (Columns rs)
  | None => Panic nil_dereference
  end.

Definition rows_Close (r : rows) : option error := None.

(** The value coercion of the spec (section 4.1), as a function of one wire
    value: a float whose remainder modulo 1 is non-negative becomes the
    64-bit integer it truncates to, every other value passes through. *)
Definition coerce (v : value) : value :=
  match v with
  | VFloat64 f =>
      if f64_ge (Mod f one) pos_zero then VInt64 (to_int64 indefinite f) else VFloat64 f
  | _ => v
  end.

(** A caller making one [Next] call per destination buffer of [dests], on
    the same cursor; each call is recorded with its outcome and the state it
    left (the cursor and the buffer).  A caller that recovers from a panic
    goes on calling. *)
Fixpoint Next_calls (r : rows) (dests : list (list value))
  : list (outcome (option error) * next_state) * rows :=
  match dests with
  | [] => ([], r)
  | d :: ds =>
      let call := Next (mkNextState r d) in
      let rest := Next_calls (recv (snd call)) ds in
      (call :: fst rest, snd rest)
  end.

End Rows.

(** The cursor that [QueryContext] builds over a result set. *)
Definition cursor_over (rs : resultSet) : rows := mkRows (Some rs) 0.

(** A computation that leaves the cursor's [result] pointer as it found it. *)
Definition keeps_result {A : Type} (m : M next_state A) : Prop :=
  forall st, rows_result (recv (snd (m st))) = rows_result (recv st).

(** A call that signals end-of-data and changes nothing. *)
Definition eof_call (r : rows) (d : list value) : outcome (option error) * next_state :=
  (Return (Some io_EOF), mkNextState r d).

(** The cursor states a caller can bring about: the fresh cursor, and what
    any call of [Next] leaves behind. *)
Inductive reachable (indefinite : float64 -> Z) (rs : resultSet) : rows -> Prop :=
  | reachable_fresh : reachable indefinite rs (cursor_over rs)
  | reachable_Next r d :
      reachable indefinite rs r ->
      reachable indefinite rs (recv (snd (Next indefinite (mkNextState r d)))).

(** The outcome of a call that came back without a panic. *)
Definition returned {A St : Type} (call : outcome A * St) : Prop :=
  exists a, fst call = Return a.

(** A destination buffer is wide enough for a row. *)
Definition wide_enough (row dest : list value) : Prop :=
  (length row <= length dest)%nat.

#[global] Instance wide_enough_dec (row dest : list value) : Decision (wide_enough row dest).
Proof. unfold wide_enough. apply _. Defined.

(** ** convertArgs *)

(** [driver.NamedValue]; [Ordinal] is a Go [int]. *)
Record NamedValue : Type := mkNamedValue {
  Name : string;
  Ordinal : Z;
  Value : value
}.

(** Modelled from the spec: the [params] type declaration is not part of the
    sources at hand; the spec gives the ParameterSet as an ordered list of
    values and an optional ordered list of names, and [convertArgs] fills its
    fields [Names] and [Values] with a [[]string] and a [[]any]. *)
Record params : Type := mkParams {
  Names : slice string;
  Values : slice value
}.

(** A strict weak ordering, as [sort.Slice] requires of its [less]. *)
Record StrictWeakOrder {A : Type} (less : A -> A -> bool) : Prop := {
  swo_irrefl : forall x, less x x = false;
  swo_trans : forall x y z, less x y = true -> less y z = true -> less x z = true;
  swo_ntrans : forall x y z, less x y = false -> less y z = false -> less x z = false
}.

(** [y] may stand after [x]: it is not [less] than [x]. *)
Definition not_after {A : Type} (less : A -> A -> bool) (x y : A) : Prop :=
  less y x = false.

#[global] Instance not_after_dec {A : Type} (less : A -> A -> bool) (x y : A)
  : Decision (not_after less x y).
Proof. unfold not_after. apply _. Defined.

(** No element is [less] than one that comes before it. *)
Definition sorted_by {A : Type} (less : A -> A -> bool) (l : list A) : Prop :=
  StronglySorted (not_after less) l.

(** A sort that meets the contract of [sort.Slice], to run the model on
    concrete inputs; like [sort.Slice] it promises nothing about the order
    of entries that compare equal. *)
Definition reference_sort (A : Type) (l : list A) (less : A -> A -> bool) : list A :=
  merge_sort (not_after less) l.

Section ConvertArgs.

(** [sort.Slice(x, less)] rearranges [x] in place; it is not stable, and
    which of the sorted arrangements it produces is left open.  The
    pointers [&args[idx]] stored in [sortedArgs] are represented by the
    entries they point to, which [convertArgs] never writes. *)
Variable sort_Slice : forall A : Type, list A -> (A -> A -> bool) -> list A.

Hypothesis sort_Slice_Permutation :
  forall A (l : list A) less, sort_Slice A l less ≡ₚ l.
Hypothesis sort_Slice_sorted :
  forall A (l : list A) less,
    StrictWeakOrder less -> sorted_by less (sort_Slice A l less).

Definition less_Ordinal (a b : NamedValue) : bool := Ordinal a <? Ordinal b.

(** Lines 88-91: [for idx := range args { sortedArgs = append(sortedArgs, &args[idx]) }] *)
Definition collect (args : list NamedValue) : slice NamedValue :=
  foldl (fun sortedArgs a => Slice.append sortedArgs a) Slice.nil args.

(** Lines 95-102, one iteration. *)
Definition emit (acc : slice string * slice value) (a : NamedValue)
  : slice string * slice value :=
  let '(names, values) := acc in
  let names :=
    if decide (0 < String.length (Name a))%nat
    then Slice.append names (Name a)
    else names in
  (names, Slice.append values (Value a)).

Definition convertArgs (args : slice NamedValue) : params :=
  if decide (Slice.len args = 0%nat)
  then mkParams Slice.nil Slice.nil
  else
    let sortedArgs := collect (Slice.elems args) in
    let sortedArgs :=
      fmap (M := option) (fun l => sort_Slice NamedValue l less_Ordinal) sortedArgs in
    let '(names, values) :=
      foldl emit (Slice.nil, Slice.nil) (Slice.elems sortedArgs) in
    mkParams names values.

End ConvertArgs.

(** One entry comes before another in ascending order of ordinals. *)
Definition Ordinal_lt (a b : NamedValue) : Prop := Ordinal a < Ordinal b.

(** A name that is present: not the empty string. *)
Definition named (n : string) : Prop := n <> EmptyString.

#[global] Instance named_dec (n : string) : Decision (named n).
Proof. unfold named. apply _. Defined.

(** The argument list of the spec's example, in the order the caller gave it. *)
Definition example_args : slice NamedValue :=
  Some [mkNamedValue EmptyString 1 (VString "x"); mkNamedValue "a" 0 (VInt64 5)].

(** ** conn *)

Record conn : Type := mkConn { url : string; jwt : string }.

Definition Connect (url jwt : string) : conn := mkConn url jwt.

Section Conn.

(** [context.Context], [driver.Stmt] and [driver.Tx]. *)
Variables (Ctx Stmt Tx : Type).

Variable sort_Slice : forall A : Type, list A -> (A -> A -> bool) -> list A.

(** One call of the RPC collaborator. *)
Record request : Type := mkRequest {
  req_ctx : Ctx;
  req_url : string;
  req_jwt : string;
  req_query : string;
  req_params : params
}.

(** The remote service and the transport: the reply to a request, which may
    depend on the requests made before. *)
Variable remote : list request -> request -> option resultSet * option error.

(** Computations that may call the collaborator; the state is the log of
    the calls made so far. *)
Definition RPC (A : Type) : Type := list request -> A * list request.

(** Modelled from the spec: [callSqld] is not part of the sources at hand;
    the spec gives it as the one logical operation of the RPC boundary,
    execute(query, params) -> result set or error, carried with the
    endpoint, the credential and the cancellation context. *)
Definition callSqld (ctx : Ctx) (url jwt query : string) (ps : params)
  : RPC (option resultSet * option error) :=
  fun log =>
    let rq := mkRequest ctx url jwt query ps in
    (remote log rq, log ++ [rq]).

Definition Prepare (c : conn) (query : string) : RPC (option Stmt * option error) :=
  fun log => ((None, Some (fmt_Errorf "prepare method not implemented")), log).

Definition conn_Close (c : conn) : RPC (option error) :=
  fun log => (None, log).

Definition Begin (c : conn) : RPC (option Tx * option error) :=
  fun log => ((None, Some (fmt_Errorf "begin method not implemented")), log).

Definition ExecContext (c : conn) (ctx : Ctx) (query : string) (args : slice NamedValue)
  : RPC (option result * option error) :=
  fun log =>
    let '((_, err), log') :=
      callSqld ctx (url c) (jwt c) query (convertArgs sort_Slice args) log in
    match err with
    | Some e => ((None, Some e), log')
    | None => ((Some (mkResult 0 0), None), log')
    end.

Definition QueryContext (c : conn) (ctx : Ctx) (query : string) (args : slice NamedValue)
  : RPC (option rows * option error) :=
  fun log =>
    let '((rs, err), log') :=
      callSqld ctx (url c) (jwt c) query (convertArgs sort_Slice args) log in
    match err with
    | Some e => ((None, Some e), log')
    | None => ((Some (mkRows rs 0), None), log')
    end.

(** The request that [ExecContext] and [QueryContext] hand to [callSqld]. *)
Definition request_of (c : conn) (ctx : Ctx) (query : string) (args : slice NamedValue)
  : request :=
  mkRequest ctx (url c) (jwt c) query (convertArgs sort_Slice args).

End Conn.

Arguments mkRequest {Ctx} req_ctx req_url req_jwt req_query req_params.
Arguments callSqld {Ctx} remote ctx url jwt query ps log.
Arguments Prepare {Ctx} Stmt c query log.
Arguments Begin {Ctx} Tx c log.
Arguments conn_Close {Ctx} c log.
Arguments ExecContext {Ctx} sort_Slice remote c ctx query args log.
Arguments QueryContext {Ctx} sort_Slice remote c ctx query args log.
Arguments request_of {Ctx} sort_Slice c ctx query args.

(** Two collaborators to run the model with: one whose calls are cancelled,
    one that answers every request with a one-row result set. *)
Definition cancelled_remote (log : list (request unit)) (rq : request unit)
  : option resultSet * option error :=
  (None, Some (wrapped "Post" context_Canceled)).

Definition answering_remote (log : list (request unit)) (rq : request unit)
  : option resultSet * option error :=
  (Some (mkResultSet ["count"%string] [[VFloat64 f_42]]), None).

Definition example_conn : conn := Connect "https://db.example" "token".

(** ** Notions used to state further properties *)

(** The sign bit of a float (false for NaN). *)
Definition sign_bit (f : float64) : bool :=
  match f with
  | S754_zero s | S754_infinity s | S754_finite s _ _ => s
  | S754_nan => false
  end.

(** A finite float whose value [m * 2^e] is a whole number. *)
Definition is_whole (f : float64) : Prop :=
  match f with
  | S754_zero _ => True
  | S754_finite _ m e => 0 <= e \/ (2 ^ (- e) | Zpos m)
  | S754_infinity _ | S754_nan => False
  end.

(** A call of [Next] that returned nil: it delivered a row. *)
Definition delivered {St : Type} (call : outcome (option error) * St) : bool :=
  match fst call with
  | Return None => true
  | _ => false
  end.

(** The number of calls of a run that delivered a row. *)
Definition deliveries {St : Type} (trace : list (outcome (option error) * St)) : nat :=
  length (filter (fun call => delivered call = true) trace).

(** What a call of [Next] on the cursor [r] with the buffer [d] leaves in
    [dest[i]]. *)
Definition cell_after (indefinite : float64 -> Z) (r : rows) (d : list value) (i : nat)
  : option value :=
  dest (snd (Next indefinite (mkNextState r d))) !! i.

(** The cursor [r] stands at a row whose cell [i] holds [c], and the buffer
    [d] has a place for it. *)
Definition at_cell (r : rows) (d : list value) (i : nat) (c : value) : Prop :=
  exists rs row,
    rows_result r = Some rs
    /\ Rows rs !! currentRowIdx r = Some row
    /\ row !! i = Some c
    /\ (i < length d)%nat.

(** A one-row cursor and a one-place buffer, to run [Next] on one cell. *)
Definition one_cell (c : value) : rows :=
  cursor_over (mkResultSet ["c"%string] [[c]]).

(** A collaborator that answers with neither a result set nor an error. *)
Definition silent_remote (log : list (request unit)) (rq : request unit)
  : option resultSet * option error :=
  (None, None).

(** A two-row result set and a collaborator that answers with it. *)
Definition two_rows : resultSet :=
  mkResultSet ["a"; "b"]%string
              [[VFloat64 f_3_14; VString "x"]; [VInt64 2; VNil]].

Definition two_rows_remote (log : list (request unit)) (rq : request unit)
  : option resultSet * option error :=
  (Some two_rows, None).

(** The argument list of the spec's example with its entries swapped, and
    one whose entries are all named. *)
Definition example_args_swapped : slice NamedValue :=
  Some [mkNamedValue "a" 0 (VInt64 5); mkNamedValue EmptyString 1 (VString "x")].

Definition named_args : slice NamedValue :=
  Some [mkNamedValue "b" 2 (VString "x"); mkNamedValue "a" 1 (VInt64 5)].

(** * Properties *)

(** ** float64 examples *)

Module Float64Examples.

Example examples_valid :
  forallb valid [one; f_42; f_3_14; f_m0_5; f_m3; f_m2_75; f_1e300] = true.
Proof. vm_compute. reflexivity. Qed.

Example Mod_42 : Mod f_42 one = pos_zero.
Proof. vm_compute. reflexivity. Qed.

Example Mod_3_14 : Mod f_3_14 one = S754_finite false 5044031582654960 (-55).
Proof. vm_compute. reflexivity. Qed.

Example Mod_m0_5 : Mod f_m0_5 one = f_m0_5.
Proof. vm_compute. reflexivity. Qed.

Example Mod_m3 : Mod f_m3 one = neg_zero.
Proof. vm_compute. reflexivity. Qed.

Example Mod_m2_75 : Mod f_m2_75 one = S754_finite true 6755399441055744 (-53).
Proof. vm_compute. reflexivity. Qed.

Example Mod_1e300 : Mod f_1e300 one = pos_zero.
Proof. vm_compute. reflexivity. Qed.

Example Mod_denormal : Mod (S754_finite false 1 (-1074)) one = S754_finite false 1 (-1074).
Proof. vm_compute. reflexivity. Qed.

Example to_int64_3_14 : to_int64 indefinite_amd64 f_3_14 = 3.
Proof. vm_compute. reflexivity. Qed.

Example to_int64_m2_75 : to_int64 indefinite_amd64 f_m2_75 = -2.
Proof. vm_compute. reflexivity. Qed.

Example to_int64_1e300 : to_int64 indefinite_amd64 f_1e300 = min_int64.
Proof. vm_compute. reflexivity. Qed.

End Float64Examples.

(** ** float64 facts *)

Section Float64Facts.

(** A comparison with zero only looks at the kind and sign of a float. *)
Lemma lt_zero_not_ge (x : float64) : f64_lt x pos_zero = true -> f64_ge x pos_zero = false.
Proof. destruct x as [s | s | | s m e]; try destruct s; cbv; congruence. Qed.

Lemma ge_zero_not_lt (x : float64) : f64_ge x pos_zero = true -> f64_lt x pos_zero = false.
Proof. destruct x as [s | s | | s m e]; try destruct s; cbv; congruence. Qed.

(** The remainder is neither non-negative nor negative exactly when it is NaN. *)
Lemma neither_ge_nor_lt_zero (x : float64) :
  f64_ge x pos_zero = false /\ f64_lt x pos_zero = false <-> x = S754_nan.
Proof.
  split.
  - destruct x as [s | s | | s m e]; try destruct s; cbv; intros [? ?]; congruence.
  - intros ->. split; reflexivity.
Qed.

Lemma Mod_one_nan (v : float64) :
  Mod v one = S754_nan <-> trunc v = None.
Proof.
  destruct v as [s | s | | s m e]; simpl; try (split; congruence).
  split; [| congruence].
  unfold exact.
  destruct (Z.rem _ _); try congruence.
  destruct (shl_align _ _ _); congruence.
Qed.

(** A float whose remainder modulo 1 can be compared with zero is finite. *)
Lemma ge_Mod_one_finite (v : float64) :
  f64_ge (Mod v one) pos_zero = true -> exists t, trunc v = Some t.
Proof.
  intros Hge. destruct (trunc v) as [t |] eqn:Ht; [eauto |].
  apply Mod_one_nan in Ht. rewrite Ht in Hge. discriminate.
Qed.

(** The remainder carries the sign of the dividend. *)
Lemma ge_Mod_one_sign s m e :
  f64_ge (Mod (S754_finite s m e) one) pos_zero = true
  <-> s = false \/ Mod (S754_finite s m e) one = S754_zero s.
Proof.
  unfold Mod, one, exact.
  destruct (Z.rem _ _) as [| p | p];
    try destruct (shl_align _ _ _) as [mz ez];
    destruct s; simpl; split; intros; try congruence; auto;
    destruct H; congruence.
Qed.

(** Every non-negative finite float has a non-negative remainder. *)
Lemma ge_Mod_one_nonneg m e :
  f64_ge (Mod (S754_finite false m e) one) pos_zero = true.
Proof. apply ge_Mod_one_sign. left. reflexivity. Qed.

(** The integer part is the magnitude scaled and cut, with the sign put back. *)
Lemma trunc_finite s m e :
  trunc (S754_finite s m e)
  = Some (cond_Zopp s (if 0 <=? e then Zpos m * 2 ^ e else Zpos m / 2 ^ (- e))).
Proof.
  unfold trunc. do 2 f_equal.
  destruct (Z.leb_spec 0 e).
  - apply Z.shiftl_mul_pow2. assumption.
  - apply Z.shiftl_div_pow2. lia.
Qed.

(** Truncation is towards zero: [t] has the sign of the float, and its
    magnitude is the largest integer not above the float's magnitude. *)
Lemma trunc_towards_zero s m e t :
  e < 0 ->
  trunc (S754_finite s m e) = Some t ->
  Z.abs t * 2 ^ (- e) <= Zpos m < (Z.abs t + 1) * 2 ^ (- e)
  /\ (if s then t <= 0 else 0 <= t).
Proof.
  intros He. rewrite trunc_finite.
  destruct (Z.leb_spec 0 e); [lia |]. intros [= <-].
  assert (Hpow : 0 < 2 ^ (- e)) by (apply Z.pow_pos_nonneg; lia).
  assert (Hq : 0 <= Zpos m / 2 ^ (- e)) by (apply Z.div_pos; lia).
  pose proof (Z.mul_div_le (Zpos m) (2 ^ (- e)) Hpow) as Hlo.
  pose proof (Z.mul_succ_div_gt (Zpos m) (2 ^ (- e)) Hpow) as Hhi.
  replace (Z.abs (cond_Zopp s (Zpos m / 2 ^ (- e)))) with (Zpos m / 2 ^ (- e))
    by (destruct s; simpl; lia).
  split; [nia | destruct s; simpl; lia].
Qed.

Lemma to_int64_fits indefinite v t :
  trunc v = Some t -> fits_int64 t = true -> to_int64 indefinite v = t.
Proof. intros Ht Hfit. unfold to_int64. rewrite Ht, Hfit. reflexivity. Qed.

End Float64Facts.

(** ** The row cursor *)

Section RowsFacts.

Variable indefinite : float64 -> Z.

Lemma store_dest_in_range idx v r d :
  (idx < length d)%nat ->
  store_dest idx v (mkNextState r d) = (Return tt, mkNextState r (<[idx := v]> d)).
Proof.
  intros Hlt. unfold store_dest. simpl.
  destruct (decide (idx < length d)%nat) as [_ | Hge]; [reflexivity | contradiction].
Qed.

Lemma store_dest_out_of_range idx v r d :
  (length d <= idx)%nat ->
  store_dest idx v (mkNextState r d)
  = (Panic (index_out_of_range idx (length d)), mkNextState r d).
Proof.
  intros Hge. unfold store_dest. simpl.
  destruct (decide (idx < length d)%nat) as [Hlt | _]; [lia | reflexivity].
Qed.

(** The switch stores the coerced value. *)
Lemma Next_switch_store idx v :
  Next_switch indefinite idx v = store_dest idx (coerce indefinite v).
Proof.
  destruct v; simpl; try reflexivity.
  destruct (f64_ge (Mod v one) pos_zero); reflexivity.
Qed.

(** The three ways of a float64 cell: a non-negative remainder (the float is
    finite, and zero or positive or an integer), a negative remainder, and no
    remainder at all (NaN and the infinities, which stay floats). *)
Lemma coerce_float64_cases (v : float64) :
  (f64_ge (Mod v one) pos_zero = true
   /\ coerce indefinite (VFloat64 v) = VInt64 (to_int64 indefinite v))
  \/ (f64_lt (Mod v one) pos_zero = true
      /\ coerce indefinite (VFloat64 v) = VFloat64 v)
  \/ (trunc v = None
      /\ coerce indefinite (VFloat64 v) = VFloat64 v).
Proof.
  cbn [coerce].
  destruct (f64_ge (Mod v one) pos_zero) eqn:Hge; [left; auto |].
  destruct (f64_lt (Mod v one) pos_zero) eqn:Hlt; [right; left; auto |].
  right; right. split; [| reflexivity].
  apply Mod_one_nan. apply neither_ge_nor_lt_zero. auto.
Qed.

Lemma load_cell_at r rs row idx c d :
  rows_result r = Some rs ->
  Rows rs !! currentRowIdx r = Some row ->
  row !! idx = Some c ->
  load_cell idx (mkNextState r d) = (Return c, mkNextState r d).
Proof.
  intros Hrs Hrow Hc.
  unfold load_cell, bind, load_result, load_currentRowIdx, index.
  cbn [recv]. rewrite Hrs. cbn [recv]. rewrite Hrow. unfold ret. rewrite Hc. reflexivity.
Qed.

(** One iteration of the loop: the cell is coerced into [dest[idx]], or the
    first store panics and nothing is written. *)
Lemma Next_body_at r rs row idx c d :
  rows_result r = Some rs ->
  Rows rs !! currentRowIdx r = Some row ->
  row !! idx = Some c ->
  Next_body indefinite idx (mkNextState r d)
  = if decide (idx < length d)%nat
    then (Return tt, mkNextState r (<[idx := coerce indefinite c]> d))
    else (Panic (index_out_of_range idx (length d)), mkNextState r d).
Proof.
  intros Hrs Hrow Hc.
  unfold Next_body, bind at 1. rewrite (load_cell_at r rs row idx c d Hrs Hrow Hc).
  unfold bind. destruct (decide (idx < length d)%nat) as [Hlt | Hge].
  - rewrite store_dest_in_range by exact Hlt.
    rewrite Next_switch_store.
    rewrite store_dest_in_range by (rewrite length_insert; exact Hlt).
    rewrite list_insert_insert_eq. reflexivity.
  - rewrite store_dest_out_of_range by lia. reflexivity.
Qed.

Lemma list_inserts_beyond {A} (k l : list A) i :
  (length l <= i)%nat -> list_inserts i k l = l.
Proof.
  revert i. induction k as [| y k IH]; intros i Hle; simpl; [reflexivity |].
  rewrite IH by lia. apply list_insert_ge. exact Hle.
Qed.

(** The loop from [idx] on: every cell of the row from [idx] on that has a
    place in [dest] is coerced into it; the loop panics at the first index
    that [dest] does not have. *)
Lemma for_range_Next_body r rs row :
  rows_result r = Some rs ->
  Rows rs !! currentRowIdx r = Some row ->
  forall n idx d,
    (idx + n = length row)%nat ->
    for_range n idx (Next_body indefinite) (mkNextState r d)
    = (if decide (n = 0%nat \/ wide_enough row d)
       then Return tt
       else Panic (index_out_of_range (Nat.max idx (length d)) (length d)),
       mkNextState r (list_inserts idx (coerce indefinite <$> drop idx row) d)).
Proof.
  intros Hrs Hrow.
  induction n as [| n IH]; intros idx d Hlen.
  - rewrite drop_ge by lia. reflexivity.
  - destruct (lookup_lt_is_Some_2 row idx) as [c Hc]; [lia |].
    rewrite (drop_S _ _ _ Hc). rewrite fmap_cons.
    cbn [for_range]. unfold bind at 1.
    rewrite (Next_body_at r rs row idx c d Hrs Hrow Hc).
    destruct (decide (idx < length d)%nat) as [Hlt | Hge].
    + rewrite IH by lia. clear IH.
      cbn [list_inserts]. rewrite list_insert_inserts_lt by lia.
      f_equal. unfold wide_enough.
      pose proof (length_insert d idx (coerce indefinite c)) as Hli.
      repeat case_decide; try reflexivity; try (exfalso; lia).
      f_equal. f_equal; lia.
    + rewrite list_inserts_beyond by lia. unfold wide_enough.
      clear IH. case_decide; [exfalso; lia |].
      do 3 f_equal. lia.
Qed.

(** A call of [Next] on a cursor standing at a row. *)
Lemma Next_at_row r rs row d :
  rows_result r = Some rs ->
  Rows rs !! currentRowIdx r = Some row ->
  Next indefinite (mkNextState r d)
  = if decide (wide_enough row d)
    then (Return None,
          mkNextState (mkRows (Some rs) (S (currentRowIdx r)))
                      (list_inserts 0 (coerce indefinite <$> row) d))
    else (Panic (index_out_of_range (length d) (length d)),
          mkNextState r (list_inserts 0 (coerce indefinite <$> row) d)).
Proof.
  intros Hrs Hrow.
  assert (Hlt : (currentRowIdx r < length (Rows rs))%nat)
    by (eapply lookup_lt_Some; exact Hrow).
  unfold Next, bind at 1, load_result. cbn [recv]. rewrite Hrs.
  unfold bind at 1, load_currentRowIdx. cbn [recv].
  destruct (decide (currentRowIdx r = length (Rows rs))) as [Heq | _]; [lia |].
  unfold bind at 1, index. rewrite Hrow. unfold ret at 1.
  unfold bind at 1.
  rewrite (for_range_Next_body r rs row Hrs Hrow (length row) 0 d) by reflexivity.
  rewrite drop_0. unfold wide_enough.
  repeat case_decide; try (exfalso; lia).
  - unfold bind, incr_currentRowIdx, ret. cbn [recv dest]. rewrite Hrs. reflexivity.
  - reflexivity.
Qed.

(** A call of [Next] on a cursor past its last row. *)
Lemma Next_at_end r rs d :
  rows_result r = Some rs ->
  currentRowIdx r = length (Rows rs) ->
  Next indefinite (mkNextState r d) = (Return (Some io_EOF), mkNextState r d).
Proof.
  intros Hrs Hidx.
  unfold Next, bind at 1, load_result. cbn [recv]. rewrite Hrs.
  unfold bind at 1, load_currentRowIdx. cbn [recv].
  destruct (decide (currentRowIdx r = length (Rows rs))) as [_ | Hne]; [| contradiction].
  reflexivity.
Qed.

(** What a call of [Next] leaves in [dest[i]], whether it then returns or
    panics further on: the coerced cell. *)
Lemma Next_dest_lookup r rs row d i c :
  rows_result r = Some rs ->
  Rows rs !! currentRowIdx r = Some row ->
  row !! i = Some c ->
  (i < length d)%nat ->
  dest (snd (Next indefinite (mkNextState r d))) !! i = Some (coerce indefinite c).
Proof.
  intros Hrs Hrow Hc Hi.
  assert (Hir : (i < length row)%nat) by (eapply lookup_lt_Some; exact Hc).
  assert (Hfill : list_inserts 0 (coerce indefinite <$> row) d !! i
                  = Some (coerce indefinite c)).
  { rewrite list_lookup_inserts by (rewrite ?length_fmap; lia).
    rewrite Nat.sub_0_r, list_lookup_fmap, Hc. reflexivity. }
  rewrite (Next_at_row r rs row d Hrs Hrow).
  case_decide; exact Hfill.
Qed.

(** C1. For every float64 wire value [v] in a cell of the current row, the
    call of [Next] leaves in the destination buffer, at the cell's position:
    [int64(v)] when [math.Mod(v, 1) >= 0], where [v] is then finite and
    [int64(v)] is its integer part (fraction discarded) whenever that fits in
    64 bits; and [v] itself, still a float64, when [math.Mod(v, 1) < 0]. *)
Theorem Next_float64_cell r rs row d i v :
  rows_result r = Some rs ->
  Rows rs !! currentRowIdx r = Some row ->
  row !! i = Some (VFloat64 v) ->
  (i < length d)%nat ->
  let d' := dest (snd (Next indefinite (mkNextState r d))) in
  (f64_ge (Mod v one) pos_zero = true ->
     d' !! i = Some (VInt64 (to_int64 indefinite v))
     /\ exists t, trunc v = Some t
                  /\ (fits_int64 t = true -> to_int64 indefinite v = t))
  /\ (f64_lt (Mod v one) pos_zero = true -> d' !! i = Some (VFloat64 v)).
Proof.
  intros Hrs Hrow Hc Hi d'. subst d'.
  rewrite (Next_dest_lookup r rs row d i _ Hrs Hrow Hc Hi).
  split.
  - intros Hge. cbn [coerce]. rewrite Hge. split; [reflexivity |].
    destruct (ge_Mod_one_finite v Hge) as [t Ht].
    exists t. split; [exact Ht |]. apply to_int64_fits. exact Ht.
  - intros Hlt. cbn [coerce]. rewrite (lt_zero_not_ge _ Hlt). reflexivity.
Qed.

(** C2. For every wire value that is not a float64 (an int64, a bool, a
    string, a byte sequence, nil, or a value of any other type) in a cell of
    the current row, the call of [Next] leaves that same value in the
    destination buffer at the cell's position; and the type switch never
    fails, whatever the value: the store before it went through, so its own
    store does. *)
Theorem Next_other_cell r rs row d i v :
  rows_result r = Some rs ->
  Rows rs !! currentRowIdx r = Some row ->
  row !! i = Some v ->
  (forall f, v <> VFloat64 f) ->
  (i < length d)%nat ->
  dest (snd (Next indefinite (mkNextState r d))) !! i = Some v
  /\ coerce indefinite v = v
  /\ forall (w : value) (idx : nat) (st : next_state),
       (idx < length (dest st))%nat ->
       Next_switch indefinite idx w st
       = (Return tt, mkNextState (recv st) (<[idx := coerce indefinite w]> (dest st))).
Proof.
  intros Hrs Hrow Hc Hnf Hi.
  assert (Hid : coerce indefinite v = v).
  { destruct v; try reflexivity. exfalso. eapply Hnf. reflexivity. }
  split; [| split].
  - rewrite (Next_dest_lookup r rs row d i v Hrs Hrow Hc Hi), Hid. reflexivity.
  - exact Hid.
  - intros w idx [r0 d0] Hidx. rewrite Next_switch_store.
    apply store_dest_in_range. exact Hidx.
Qed.

(** *** Runs of calls *)

(** On a cursor past its last row every call signals end-of-data and leaves
    the cursor and the buffer as they were. *)
Lemma Next_calls_exhausted rs extra :
  let r := mkRows (Some rs) (length (Rows rs)) in
  Next_calls indefinite r extra = (eof_call r <$> extra, r).
Proof.
  intros r. induction extra as [| d extra IH]; [reflexivity |].
  cbn [Next_calls]. rewrite (Next_at_end r rs d) by reflexivity.
  cbn [snd recv]. rewrite IH. reflexivity.
Qed.

Lemma fmap_eof_call_outcome r (extra : list (list value)) :
  fst <$> (eof_call r <$> extra) = replicate (length extra) (Return (Some io_EOF)).
Proof. induction extra as [| d extra IH]; [reflexivity |]. cbn. rewrite IH. reflexivity. Qed.

Lemma fmap_eof_call_state r (extra : list (list value)) :
  snd <$> (eof_call r <$> extra) = mkNextState r <$> extra.
Proof. induction extra as [| d extra IH]; [reflexivity |]. cbn. rewrite IH. reflexivity. Qed.

(** From a cursor standing at row [k], with a wide enough buffer for every
    remaining row and then [extra] more calls: the calls for the rows return
    without error, each leaving the index one further and the buffer filled
    with the coerced row; the extra calls signal end-of-data. *)
Lemma Next_calls_from rs extra :
  forall dests k,
    (k <= length (Rows rs))%nat ->
    Forall2 wide_enough (drop k (Rows rs)) dests ->
    let run := Next_calls indefinite (mkRows (Some rs) k) (dests ++ extra) in
    let r_end := mkRows (Some rs) (length (Rows rs)) in
    fst <$> fst run
      = replicate (length dests) (Return None)
        ++ replicate (length extra) (Return (Some io_EOF))
    /\ snd <$> fst run
      = zip_with (fun i '(row, d) =>
                    mkNextState (mkRows (Some rs) (S i))
                                (list_inserts 0 (coerce indefinite <$> row) d))
                 (seq k (length dests)) (zip (drop k (Rows rs)) dests)
        ++ (mkNextState r_end <$> extra)
    /\ snd run = r_end.
Proof.
  induction dests as [| d dests IH]; intros k Hk Hwide.
  - apply Forall2_nil_inv_r in Hwide.
    assert (k = length (Rows rs)) as ->.
    { apply (f_equal length) in Hwide. rewrite length_drop in Hwide.
      simpl in Hwide. lia. }
    cbn [app length replicate seq zip_with]. rewrite Next_calls_exhausted.
    cbn [fst snd]. rewrite fmap_eof_call_outcome, fmap_eof_call_state. auto.
  - apply Forall2_cons_inv_r in Hwide as (row & rest & Hrd & Hrest & Hdrop).
    assert (Hrow : Rows rs !! k = Some row).
    { rewrite <- (Nat.add_0_r k), <- lookup_drop, Hdrop. reflexivity. }
    assert (Hdrop' : drop (S k) (Rows rs) = rest).
    { replace (S k) with (k + 1)%nat by lia.
      rewrite <- (drop_drop (Rows rs) 1 k), Hdrop. reflexivity. }
    assert (Hlt : (k < length (Rows rs))%nat) by (eapply lookup_lt_Some; exact Hrow).
    specialize (IH (S k) Hlt). rewrite Hdrop' in IH. specialize (IH Hrest).
    destruct IH as (IHo & IHs & IHe).
    rewrite Hdrop. cbn [app Next_calls].
    rewrite (Next_at_row (mkRows (Some rs) k) rs row d eq_refl Hrow).
    destruct (decide (wide_enough row d)) as [_ | Hno]; [| contradiction].
    cbn [snd fst recv currentRowIdx].
    rewrite !fmap_cons, IHo, IHs, IHe. cbn [fst snd].
    split; [| split]; reflexivity.
Qed.

Lemma served_indices (rs : resultSet) :
  forall (rws dests : list (list value)) k,
    length rws = length dests ->
    (fun st => currentRowIdx (recv st))
      <$> zip_with (fun i '(row, d) =>
                      mkNextState (mkRows (Some rs) (S i))
                                  (list_inserts 0 (coerce indefinite <$> row) d))
                   (seq k (length dests)) (zip rws dests)
    = seq (S k) (length dests).
Proof.
  induction rws as [| row rws IH]; intros [| d dests] k Hlen; try discriminate.
  - reflexivity.
  - cbn. f_equal. apply IH. simpl in Hlen. lia.
Qed.

(** The buffers that the [database/sql] framework hands to [Next], as wide
    as [Columns()], are wide enough when every row has as many cells as
    there are columns. *)
Lemma driver_buffers_wide_enough (rs : resultSet) :
  Forall (fun row => length row = length (Columns rs)) (Rows rs) ->
  Forall2 wide_enough (Rows rs)
          (replicate (length (Rows rs)) (replicate (length (Columns rs)) VNil)).
Proof.
  intros Hwf. induction Hwf as [| row rws Hrow _ IH]; [constructor |].
  cbn [length replicate]. constructor; [| exact IH].
  unfold wide_enough. rewrite length_replicate. lia.
Qed.

(** C4. Over a ResultSet with R rows, when the buffer handed to each of the
    first R calls is at least as long as the row it is to receive (the
    [driver.Rows] contract: the buffer is as wide as [Columns()]), the
    first R calls of [Next] return without error, each leaving
    the row index one further (1, 2, ..., R); the (R+1)-th call and every
    call after it return [io.EOF], the sentinel and no other error, and
    leave the cursor (index R) and the buffer untouched. *)
Theorem Next_calls_over rs dests extra :
  Forall2 wide_enough (Rows rs) dests ->
  let R := length (Rows rs) in
  let run := Next_calls indefinite (cursor_over rs) (dests ++ extra) in
  fst <$> fst run
    = replicate R (Return None) ++ replicate (length extra) (Return (Some io_EOF))
  /\ (fun st => currentRowIdx (recv st)) <$> (snd <$> fst run)
    = seq 1 R ++ replicate (length extra) R
  /\ drop R (snd <$> fst run) = mkNextState (mkRows (Some rs) R) <$> extra
  /\ snd run = mkRows (Some rs) R.
Proof.
  intros Hwide R run. subst R run. unfold cursor_over.
  pose proof (Forall2_length _ _ _ Hwide) as Hlen.
  destruct (Next_calls_from rs extra dests 0 ltac:(lia) Hwide) as (Ho & Hs & He).
  rewrite drop_0 in Hs.
  split; [| split; [| split]].
  - rewrite Ho, <- Hlen. reflexivity.
  - rewrite Hs, fmap_app, served_indices by exact Hlen.
    rewrite <- list_fmap_compose, <- Hlen. f_equal.
    clear. induction extra as [| d extra IH]; [reflexivity |].
    cbn. f_equal. exact IH.
  - rewrite Hs. apply drop_app_length'.
    rewrite length_zip_with, length_seq, length_zip. lia.
  - exact He.
Qed.

(** The same run under the [driver.Rows] contract and the invariant of the
    result set: every row has as many cells as there are columns, and every
    buffer is as wide as [Columns()]. *)
Lemma Next_calls_driver_contract rs extra :
  Forall (fun row => length row = length (Columns rs)) (Rows rs) ->
  let R := length (Rows rs) in
  let dests := replicate R (replicate (length (Columns rs)) VNil) in
  let run := Next_calls indefinite (cursor_over rs) (dests ++ extra) in
  fst <$> fst run
    = replicate R (Return None) ++ replicate (length extra) (Return (Some io_EOF))
  /\ snd run = mkRows (Some rs) R.
Proof.
  intros Hwf R dests run. subst R dests run. unfold cursor_over.
  pose proof (driver_buffers_wide_enough rs Hwf) as Hwide.
  destruct (Next_calls_from rs extra _ 0 ltac:(lia) Hwide) as (Ho & _ & He).
  rewrite length_replicate in Ho. split; [exact Ho | exact He].
Qed.

(** *** The frame of [Next] *)

Lemma keeps_ret {A} (a : A) : keeps_result (ret a).
Proof. intros st. reflexivity. Qed.

Lemma keeps_panic {A} e : keeps_result (panic (A := A) e).
Proof. intros st. reflexivity. Qed.

Lemma keeps_bind {A B} (m : M next_state A) (k : A -> M next_state B) :
  keeps_result m -> (forall a, keeps_result (k a)) -> keeps_result (bind m k).
Proof.
  intros Hm Hk st. unfold bind. specialize (Hm st).
  destruct (m st) as [[a | e] st']; simpl in *; [| exact Hm].
  rewrite Hk. exact Hm.
Qed.

Lemma keeps_index {A} (l : list A) i : keeps_result (index l i).
Proof. unfold index. destruct (l !! i); [apply keeps_ret | apply keeps_panic]. Qed.

Lemma keeps_load_result : keeps_result load_result.
Proof.
  intros [r d]. unfold load_result. cbn [recv].
  destruct (rows_result r) eqn:Hr; cbn [snd recv]; congruence.
Qed.

Lemma keeps_load_currentRowIdx : keeps_result load_currentRowIdx.
Proof. intros st. reflexivity. Qed.

Lemma keeps_store_dest idx v : keeps_result (store_dest idx v).
Proof. intros st. unfold store_dest. case_decide; reflexivity. Qed.

Lemma keeps_incr_currentRowIdx : keeps_result incr_currentRowIdx.
Proof. intros st. reflexivity. Qed.

Lemma keeps_for_range n (body : nat -> M next_state unit) :
  (forall idx, keeps_result (body idx)) ->
  forall idx, keeps_result (for_range n idx body).
Proof.
  intros Hbody. induction n as [| n IH]; intros idx; cbn [for_range].
  - apply keeps_ret.
  - apply keeps_bind; [apply Hbody | intros _; apply IH].
Qed.

Create HintDb frame.
#[local] Hint Resolve keeps_ret keeps_panic keeps_bind keeps_index keeps_load_result
  keeps_load_currentRowIdx keeps_store_dest keeps_incr_currentRowIdx keeps_for_range
  : frame.

Lemma keeps_Next_switch idx v : keeps_result (Next_switch indefinite idx v).
Proof. rewrite Next_switch_store. auto with frame. Qed.

Lemma keeps_Next_body idx : keeps_result (Next_body indefinite idx).
Proof.
  unfold Next_body. apply keeps_bind.
  - unfold load_cell.
    apply keeps_bind; [auto with frame | intros rs].
    apply keeps_bind; [auto with frame | intros i].
    apply keeps_bind; auto with frame.
  - intros value.
    apply keeps_bind; [auto with frame | intros _; apply keeps_Next_switch].
Qed.

(** [Next] never writes [r.result]: on return, on end-of-data and on a panic. *)
Lemma keeps_Next : keeps_result (Next indefinite).
Proof.
  unfold Next.
  apply keeps_bind; [auto with frame | intros rs].
  apply keeps_bind; [auto with frame | intros i].
  case_decide; [auto with frame |].
  apply keeps_bind; [auto with frame | intros row].
  apply keeps_bind; [apply keeps_for_range; apply keeps_Next_body | intros _].
  auto with frame.
Qed.

(** C8. For every cursor, every position and every sequence of [Next]
    calls, with any buffers: after each call, and at the end, the cursor
    still holds the result set it held at the start, and [Columns()] gives
    what it gave at the start, which is that result set's [Columns]
    verbatim (a cursor whose [result] pointer is nil has no columns to give:
    [Columns()] panics, before and after). *)
Theorem Next_calls_keep_Columns (r : rows) (dests : list (list value)) :
  let run := Next_calls indefinite r dests in
  Forall (fun call => rows_result (recv (snd call)) = rows_result r
                      /\ rows_Columns (recv (snd call)) = rows_Columns r) (fst run)
  /\ rows_result (snd run) = rows_result r
  /\ rows_Columns (snd run) = rows_Columns r
  /\ rows_Columns r = match rows_result r with
                      | Some rs => Return (Columns rs)
                      | None => Panic nil_dereference
                      end.
Proof.
  cbv zeta.
  assert (Hcols : forall r1 r2, rows_result r1 = rows_result r2 ->
                                rows_Columns r1 = rows_Columns r2).
  { intros r1 r2 H. unfold rows_Columns. rewrite H. reflexivity. }
  revert r. induction dests as [| d dests IH]; intros r.
  - cbn. split; [constructor |]. repeat split; reflexivity.
  - cbn [Next_calls fst snd].
    pose proof (keeps_Next (mkNextState r d)) as Hstep. cbn [recv] in Hstep.
    destruct (IH (recv (snd (Next indefinite (mkNextState r d)))))
      as (IHall & IHr & IHc & _).
    split; [| split; [| split]].
    + constructor; [split; [exact Hstep | apply Hcols; exact Hstep] |].
      eapply Forall_impl; [exact IHall |].
      intros call [H1 H2]. split; [congruence |].
      rewrite H2. apply Hcols. exact Hstep.
    + congruence.
    + rewrite IHc. apply Hcols. exact Hstep.
    + reflexivity.
Qed.

(** *** Faults *)

(** Every cursor state a caller can bring about holds its result set and an
    index that is at most the number of rows. *)
Lemma reachable_inv rs r :
  reachable indefinite rs r ->
  rows_result r = Some rs /\ (currentRowIdx r <= length (Rows rs))%nat.
Proof.
  induction 1 as [| r d Hreach [Hrs Hidx]].
  - split; [reflexivity | simpl; lia].
  - destruct (decide (currentRowIdx r = length (Rows rs))) as [Hend | Hmid].
    + rewrite (Next_at_end r rs d Hrs Hend). cbn [snd recv]. auto.
    + destruct (lookup_lt_is_Some_2 (Rows rs) (currentRowIdx r)) as [row Hrow]; [lia |].
      apply lookup_lt_Some in Hrow as Hlt.
      rewrite (Next_at_row r rs row d Hrs Hrow).
      case_decide; cbn [snd recv rows_result currentRowIdx]; auto with lia.
Qed.

(** The index out of the reachable range: the row access itself panics. *)
Lemma Next_past_end r rs d :
  rows_result r = Some rs ->
  (length (Rows rs) < currentRowIdx r)%nat ->
  Next indefinite (mkNextState r d)
  = (Panic (index_out_of_range (currentRowIdx r) (length (Rows rs))), mkNextState r d).
Proof.
  intros Hrs Hidx.
  unfold Next, bind at 1, load_result. cbn [recv]. rewrite Hrs.
  unfold bind at 1, load_currentRowIdx. cbn [recv].
  case_decide; [lia |].
  unfold bind at 1, index. rewrite lookup_ge_None_2 by lia. reflexivity.
Qed.

(** C10. On a cursor a caller can bring about, a call of [Next] at a row
    returns exactly when the destination buffer is at least as long as the
    row, and panics on the buffer index otherwise; and when the buffers
    handed to the next calls are long enough for each remaining row, no call
    faults, neither these nor any call made after the rows are used up. *)
Theorem Next_faults_only_on_short_buffer rs r :
  reachable indefinite rs r ->
  (forall row d,
     Rows rs !! currentRowIdx r = Some row ->
     (returned (Next indefinite (mkNextState r d)) <-> wide_enough row d)
     /\ (~ wide_enough row d ->
         fst (Next indefinite (mkNextState r d))
         = Panic (index_out_of_range (length d) (length d))))
  /\ (forall dests extra,
        Forall2 wide_enough (drop (currentRowIdx r) (Rows rs)) dests ->
        Forall returned (fst (Next_calls indefinite r (dests ++ extra)))).
Proof.
  intros Hreach. destruct (reachable_inv rs r Hreach) as [Hrs Hidx].
  split.
  - intros row d Hrow. rewrite (Next_at_row r rs row d Hrs Hrow).
    unfold returned. case_decide as Hw; cbn [fst]; split.
    + split; [intros _; exact Hw | intros _; eauto].
    + intros Hno. contradiction.
    + split; [intros [a Ha]; discriminate | intros Hyes; contradiction].
    + reflexivity.
  - intros dests extra Hwide.
    destruct r as [res k]. cbn [rows_result currentRowIdx] in *. subst res.
    destruct (Next_calls_from rs extra dests k Hidx Hwide) as (Ho & _ & _).
    unfold returned.
    apply (Forall_fmap fst (fun o => exists a, o = Return a)).
    rewrite Ho. apply Forall_app. split; apply Forall_replicate; eauto.
Qed.

End RowsFacts.

(** The three cells of the spec's example: 42.0, 3.14 and -0.5. *)
Lemma Next_float64_cell_witness :
  let rs := mkResultSet ["a"; "b"; "c"]%string
              [[VFloat64 f_42; VFloat64 f_3_14;
                VFloat64 f_m0_5]] in
  let d' := dest (snd (Next indefinite_amd64
                         (mkNextState (cursor_over rs) [VNil; VNil; VNil]))) in
  d' !! 0%nat = Some (VInt64 42)
  /\ d' !! 1%nat = Some (VInt64 3)
  /\ d' !! 2%nat = Some (VFloat64 f_m0_5).
Proof.
  intros rs d'.
  pose (row := [VFloat64 f_42; VFloat64 f_3_14;
                VFloat64 f_m0_5]).
  split; [| split].
  - apply (Next_float64_cell indefinite_amd64 (cursor_over rs) rs row
             [VNil; VNil; VNil] 0 f_42);
      [reflexivity | reflexivity | reflexivity | simpl; lia | vm_compute; reflexivity].
  - apply (Next_float64_cell indefinite_amd64 (cursor_over rs) rs row
             [VNil; VNil; VNil] 1 f_3_14);
      [reflexivity | reflexivity | reflexivity | simpl; lia | vm_compute; reflexivity].
  - apply (Next_float64_cell indefinite_amd64 (cursor_over rs) rs row
             [VNil; VNil; VNil] 2 f_m0_5);
      [reflexivity | reflexivity | reflexivity | simpl; lia | vm_compute; reflexivity].
Defined.

Lemma Next_other_cell_witness :
  let rs := mkResultSet ["a"; "b"]%string
              [[VString "foobar"; VNil]; [VInt64 42; VBool true]] in
  dest (snd (Next indefinite_amd64
               (mkNextState (mkRows (Some rs) 1) [VNil; VNil]))) !! 1%nat
  = Some (VBool true).
Proof.
  intros rs.
  apply (Next_other_cell indefinite_amd64 (mkRows (Some rs) 1) rs
           [VInt64 42; VBool true] [VNil; VNil] 1 (VBool true));
    [reflexivity | reflexivity | reflexivity | discriminate | simpl; lia].
Defined.

(** Two rows, two buffers of the right width, then two more calls. *)
Lemma Next_calls_over_witness :
  let rs := mkResultSet ["a"; "b"]%string
              [[VInt64 1; VString "x"]; [VInt64 2; VNil]] in
  let run := Next_calls indefinite_amd64 (cursor_over rs)
               ([[VNil; VNil]; [VNil; VNil]] ++ [[VNil; VNil]; []]) in
  fst <$> fst run
    = [Return None; Return None; Return (Some io_EOF); Return (Some io_EOF)]
  /\ (fun st => currentRowIdx (recv st)) <$> (snd <$> fst run) = [1; 2; 2; 2]%nat
  /\ drop 2 (snd <$> fst run)
     = [mkNextState (mkRows (Some rs) 2) [VNil; VNil]; mkNextState (mkRows (Some rs) 2) []]
  /\ snd run = mkRows (Some rs) 2.
Proof.
  intros rs.
  apply (Next_calls_over indefinite_amd64 rs [[VNil; VNil]; [VNil; VNil]]
           [[VNil; VNil]; []]).
  repeat constructor; unfold wide_enough; simpl; lia.
Defined.

(** Outside the [driver.Rows] contract: over a result set with one row of
    one cell, calls with an empty buffer panic, and the index stays 0. *)
Lemma Next_calls_short_buffer :
  let rs := mkResultSet ["a"]%string [[VInt64 1]] in
  let run := Next_calls indefinite_amd64 (cursor_over rs) [[]; []] in
  fst <$> fst run
    = [Panic (index_out_of_range 0 0); Panic (index_out_of_range 0 0)]
  /\ fst <$> fst run <> [Return None; Return (Some io_EOF)]
  /\ snd run = cursor_over rs.
Proof.
  intros rs run. vm_compute. split; [reflexivity | split; [discriminate | reflexivity]].
Qed.

Lemma Next_faults_only_on_short_buffer_witness :
  let rs := mkResultSet ["a"; "b"]%string
              [[VInt64 1; VString "x"]; [VInt64 2; VNil]] in
  Forall returned
    (fst (Next_calls indefinite_amd64 (cursor_over rs)
            ([[VNil; VNil; VNil]; [VNil; VNil]] ++ [[]]))).
Proof.
  intros rs.
  apply (Next_faults_only_on_short_buffer indefinite_amd64 rs (cursor_over rs)).
  - apply reachable_fresh.
  - repeat constructor; unfold wide_enough; simpl; lia.
Defined.

(** ** Parameter normalisation *)

Section SortFacts.

Context {A : Type} (less : A -> A -> bool).
Hypothesis less_swo : StrictWeakOrder less.

Lemma swo_asym x y : less x y = true -> less y x = false.
Proof.
  intros Hxy. destruct (less y x) eqn:Hyx; [| reflexivity].
  pose proof (swo_trans less less_swo x y x Hxy Hyx) as Hxx.
  rewrite (swo_irrefl less less_swo) in Hxx. discriminate.
Qed.

#[local] Instance not_after_trans : Transitive (not_after less).
Proof.
  intros x y z Hxy Hyz. unfold not_after in *.
  exact (swo_ntrans less less_swo z y x Hyz Hxy).
Qed.

#[local] Instance not_after_total : Total (not_after less).
Proof.
  intros x y. unfold not_after.
  destruct (less y x) eqn:Hyx; [right | left; reflexivity].
  apply swo_asym. exact Hyx.
Qed.

Lemma reference_sort_Permutation (l : list A) : reference_sort A l less ≡ₚ l.
Proof. apply merge_sort_Permutation. Qed.

Lemma reference_sort_sorted (l : list A) : sorted_by less (reference_sort A l less).
Proof. apply StronglySorted_merge_sort; apply _. Qed.

End SortFacts.

Lemma less_Ordinal_swo : StrictWeakOrder less_Ordinal.
Proof.
  unfold less_Ordinal. split.
  - intros x. apply Z.ltb_irrefl.
  - intros x y z Hxy Hyz. apply Z.ltb_lt in Hxy, Hyz. apply Z.ltb_lt. lia.
  - intros x y z Hxy Hyz. apply Z.ltb_ge in Hxy, Hyz. apply Z.ltb_ge. lia.
Qed.

(** With pairwise-distinct ordinals, a sorted arrangement is strictly
    ascending. *)
Lemma sorted_by_Ordinal_strict (l : list NamedValue) :
  NoDup (Ordinal <$> l) ->
  sorted_by less_Ordinal l ->
  StronglySorted Ordinal_lt l.
Proof.
  intros Hnd Hsorted. induction Hsorted as [| a l Hl IH Hall]; [constructor |].
  rewrite fmap_cons in Hnd. apply NoDup_cons in Hnd as [Hnotin Hnd].
  constructor; [exact (IH Hnd) |].
  apply Forall_forall. intros b Hb.
  rewrite Forall_forall in Hall. specialize (Hall b Hb).
  unfold not_after, less_Ordinal in Hall. apply Z.ltb_ge in Hall.
  unfold Ordinal_lt.
  assert (Ordinal a <> Ordinal b).
  { intros Heq. apply Hnotin. rewrite Heq. apply list_elem_of_fmap_2. exact Hb. }
  lia.
Qed.

#[local] Instance Ordinal_lt_antisym : AntiSymm (=) Ordinal_lt.
Proof. intros a b Hab Hba. unfold Ordinal_lt in *. lia. Qed.

(** There is at most one strictly ascending arrangement of a list. *)
Lemma ascending_unique (l1 l2 : list NamedValue) :
  StronglySorted Ordinal_lt l1 -> StronglySorted Ordinal_lt l2 -> l1 ≡ₚ l2 -> l1 = l2.
Proof. apply StronglySorted_unique. apply Ordinal_lt_antisym. Qed.

Lemma length_pos_named (n : string) : (0 < String.length n)%nat <-> named n.
Proof. unfold named. destruct n; simpl; split; intros; try congruence; lia. Qed.

Lemma elems_Some {T : Type} (l : list T) : Slice.elems (Some l) = l.
Proof. reflexivity. Qed.

Lemma foldl_append_Some {T : Type} (l acc : list T) :
  foldl (fun s x => Slice.append s x) (Some acc) l = Some (acc ++ l).
Proof.
  revert acc. induction l as [| b l IH]; intros acc; cbn [foldl].
  - rewrite app_nil_r. reflexivity.
  - unfold Slice.append at 2. cbn [Slice.elems default].
    rewrite IH, <- app_assoc. reflexivity.
Qed.

Lemma collect_cons a (l : list NamedValue) : collect (a :: l) = Some (a :: l).
Proof. unfold collect. cbn [foldl]. apply (foldl_append_Some l [a]). Qed.

(** The second loop: every value is appended; a name is appended when it is
    not empty. *)
Lemma foldl_emit (l : list NamedValue) (names : slice string) (values : slice value) :
  let out := foldl emit (names, values) l in
  Slice.elems (fst out) = Slice.elems names ++ filter named (Name <$> l)
  /\ Slice.elems (snd out) = Slice.elems values ++ (Value <$> l)
  /\ (l <> [] -> Slice.is_nil (snd out) = false)
  /\ (Slice.is_nil (fst out)
      = Slice.is_nil names && bool_decide (filter named (Name <$> l) = [])).
Proof.
  revert names values. induction l as [| a l IH]; intros names values.
  - cbn. rewrite !app_nil_r, andb_true_r.
    repeat split; try reflexivity. intros H; contradiction.
  - cbn [foldl].
    set (names' := if decide (0 < String.length (Name a))%nat
                   then Slice.append names (Name a) else names).
    assert (Hemit : emit (names, values) a = (names', Slice.append values (Value a)))
      by reflexivity.
    rewrite Hemit.
    destruct (IH names' (Slice.append values (Value a))) as (IHn & IHv & _ & IHnil).
    cbv zeta. rewrite IHn, IHnil. rewrite !fmap_cons, filter_cons. subst names'.
    split; [| split; [| split]].
    + destruct (decide (0 < String.length (Name a))%nat) as [Hn | Hn];
        destruct (decide (named (Name a))) as [Hn' | Hn'];
        rewrite length_pos_named in Hn; try contradiction.
      * unfold Slice.append. simpl. rewrite <- app_assoc. reflexivity.
      * reflexivity.
    + rewrite IHv. unfold Slice.append. simpl. rewrite <- app_assoc. reflexivity.
    + intros _. apply (f_equal length) in IHv. rewrite length_app in IHv.
      unfold Slice.append in IHv at 1. simpl in IHv. rewrite length_app in IHv.
      simpl in IHv.
      destruct (snd (foldl emit _ l)) as [vs |]; [reflexivity |].
      simpl in IHv. lia.
    + destruct (decide (0 < String.length (Name a))%nat) as [Hn | Hn];
        destruct (decide (named (Name a))) as [Hn' | Hn'];
        rewrite length_pos_named in Hn; try contradiction.
      * simpl. rewrite andb_false_r. reflexivity.
      * reflexivity.
Qed.

Section ConvertArgsFacts.

Variable sort_Slice : forall A : Type, list A -> (A -> A -> bool) -> list A.

Hypothesis sort_Slice_Permutation :
  forall A (l : list A) less, sort_Slice A l less ≡ₚ l.
Hypothesis sort_Slice_sorted :
  forall A (l : list A) less,
    StrictWeakOrder less -> sorted_by less (sort_Slice A l less).

Lemma convertArgs_empty (args : slice NamedValue) :
  Slice.len args = 0%nat -> convertArgs sort_Slice args = mkParams Slice.nil Slice.nil.
Proof.
  intros Hlen. unfold convertArgs.
  destruct (decide (Slice.len args = 0%nat)) as [_ | Hne]; [reflexivity | contradiction].
Qed.

(** What [convertArgs] returns for a non-empty argument list, in terms of
    the sorted entries. *)
Lemma convertArgs_nonempty a (l : list NamedValue) :
  let sorted := sort_Slice NamedValue (a :: l) less_Ordinal in
  let ps := convertArgs sort_Slice (Some (a :: l)) in
  Slice.elems (Names ps) = filter named (Name <$> sorted)
  /\ Values ps = Some (Value <$> sorted)
  /\ Slice.is_nil (Names ps) = bool_decide (filter named (Name <$> sorted) = []).
Proof.
  intros sorted ps. subst ps. unfold convertArgs.
  destruct (decide (Slice.len (Some (a :: l)) = 0%nat)) as [Hlen | _];
    [discriminate |].
  rewrite elems_Some, collect_cons. cbn [fmap option_fmap option_map].
  rewrite elems_Some. fold sorted.
  destruct (foldl_emit sorted Slice.nil Slice.nil) as (Hn & Hv & Hnil & Hnn).
  cbv zeta in Hn, Hv, Hnil, Hnn.
  destruct (foldl emit (Slice.nil, Slice.nil) sorted) as [names values].
  cbn [fst snd Names Values] in *.
  split; [exact Hn | split; [| exact Hnn]].
  assert (Hne : sorted <> []).
  { intros Heq. pose proof (sort_Slice_Permutation _ (a :: l) less_Ordinal) as Hp.
    fold sorted in Hp. rewrite Heq in Hp. apply Permutation_nil_cons in Hp. exact Hp. }
  specialize (Hnil Hne). destruct values as [vs |]; [| discriminate].
  cbn in Hv. rewrite Hv. reflexivity.
Qed.

(** C3. For every argument list whose ordinals are pairwise distinct, in
    whatever order the entries come: there is exactly one arrangement of the
    entries in strictly ascending order of ordinals; the values list of the
    returned ParameterSet holds the values of the entries in that order; and
    the names list holds the names of the entries that have a non-empty name,
    in that same order, with nothing standing for the unnamed entries. *)
Theorem convertArgs_by_Ordinal (args : slice NamedValue) :
  NoDup (Ordinal <$> Slice.elems args) ->
  exists sorted : list NamedValue,
    sorted ≡ₚ Slice.elems args
    /\ StronglySorted Ordinal_lt sorted
    /\ (forall s, s ≡ₚ Slice.elems args -> StronglySorted Ordinal_lt s -> s = sorted)
    /\ Slice.elems (Values (convertArgs sort_Slice args)) = Value <$> sorted
    /\ Slice.elems (Names (convertArgs sort_Slice args)) = filter named (Name <$> sorted).
Proof.
  intros Hnd.
  destruct (decide (Slice.len args = 0%nat)) as [Hlen | Hlen].
  { rewrite (convertArgs_empty args Hlen).
    apply nil_length_inv in Hlen. rewrite Hlen.
    exists []. split; [reflexivity |]. split; [constructor |].
    split; [| split; reflexivity].
    intros s Hs _. apply Permutation_nil_r. exact Hs. }
  destruct args as [[| a l] |]; try (exfalso; apply Hlen; reflexivity).
  rewrite elems_Some in *.
  set (sorted := sort_Slice NamedValue (a :: l) less_Ordinal).
  assert (Hperm : sorted ≡ₚ a :: l) by apply sort_Slice_Permutation.
  assert (Hasc : StronglySorted Ordinal_lt sorted).
  { apply sorted_by_Ordinal_strict.
    - rewrite Hperm. exact Hnd.
    - apply sort_Slice_sorted. apply less_Ordinal_swo. }
  destruct (convertArgs_nonempty a l) as (Hn & Hv & _).
  cbv zeta in Hn, Hv. fold sorted in Hn, Hv.
  exists sorted. split; [exact Hperm |]. split; [exact Hasc |]. split; [| split].
  - intros s Hs Hs_asc. apply ascending_unique; [exact Hs_asc | exact Hasc |].
    rewrite Hs, Hperm. reflexivity.
  - rewrite Hv. reflexivity.
  - exact Hn.
Qed.

(** C9. An argument list of length zero (nil or empty) gives the
    ParameterSet whose two lists are nil, which is not the ParameterSet with
    two present lists of length zero; an argument list of any other length
    gives a values list that is present and has one entry per argument. *)
Theorem convertArgs_nil_or_present (args : slice NamedValue) :
  (Slice.len args = 0%nat ->
     convertArgs sort_Slice args = mkParams Slice.nil Slice.nil
     /\ convertArgs sort_Slice args <> mkParams (Some []) (Some []))
  /\ (Slice.len args <> 0%nat ->
      exists vs, Values (convertArgs sort_Slice args) = Some vs
                 /\ length vs = Slice.len args).
Proof.
  split.
  - intros Hlen. rewrite (convertArgs_empty args Hlen).
    split; [reflexivity | discriminate].
  - intros Hlen. destruct args as [[| a l] |]; try (exfalso; apply Hlen; reflexivity).
    destruct (convertArgs_nonempty a l) as (_ & Hv & _). cbv zeta in Hv.
    eexists. split; [exact Hv |].
    rewrite length_fmap. unfold Slice.len. cbn [Slice.elems default].
    apply Permutation_length. apply sort_Slice_Permutation.
Qed.

End ConvertArgsFacts.

Example convertArgs_example :
  convertArgs reference_sort example_args
  = mkParams (Some ["a"%string]) (Some [VInt64 5; VString "x"]).
Proof. vm_compute. reflexivity. Qed.

Example convertArgs_unnamed :
  convertArgs reference_sort (Some [mkNamedValue EmptyString 2 (VInt64 7); mkNamedValue EmptyString 1 VNil])
  = mkParams Slice.nil (Some [VNil; VInt64 7]).
Proof. vm_compute. reflexivity. Qed.

Lemma convertArgs_by_Ordinal_witness :
  exists sorted : list NamedValue,
    sorted ≡ₚ Slice.elems example_args
    /\ StronglySorted Ordinal_lt sorted
    /\ (forall s, s ≡ₚ Slice.elems example_args -> StronglySorted Ordinal_lt s -> s = sorted)
    /\ Slice.elems (Values (convertArgs reference_sort example_args)) = Value <$> sorted
    /\ Slice.elems (Names (convertArgs reference_sort example_args))
       = filter named (Name <$> sorted).
Proof.
  apply (convertArgs_by_Ordinal reference_sort
           (fun A l less => reference_sort_Permutation less l)
           (fun A l less Hswo => reference_sort_sorted less Hswo l)
           example_args).
  apply (bool_decide_unpack _). vm_compute. exact I.
Defined.

Lemma convertArgs_nil_or_present_witness :
  convertArgs reference_sort (Some []) = mkParams Slice.nil Slice.nil
  /\ exists vs, Values (convertArgs reference_sort example_args) = Some vs
                /\ length vs = 2%nat.
Proof.
  split.
  - apply (convertArgs_nil_or_present reference_sort
             (fun A l less => reference_sort_Permutation less l) (Some [])).
    reflexivity.
  - apply (convertArgs_nil_or_present reference_sort
             (fun A l less => reference_sort_Permutation less l) example_args).
    vm_compute. discriminate.
Defined.

(** ** The connection *)

Section ConnFacts.

Variables (Ctx Stmt Tx : Type).
Variable sort_Slice : forall A : Type, list A -> (A -> A -> bool) -> list A.
Variable remote : list (request Ctx) -> request Ctx -> option resultSet * option error.

(** C5. [Prepare] and [Begin] fail at once, for every connection, every
    query and every history of the connection: they return no statement and
    no transaction, the error "prepare method not implemented" or "begin
    method not implemented", and make no call to the RPC collaborator (the
    log of calls is as it was). *)
Theorem Prepare_Begin_not_implemented (c : conn) (query : string) (log : list (request Ctx)) :
  Prepare Stmt c query log
  = ((None, Some (fmt_Errorf "prepare method not implemented")), log)
  /\ Begin Tx c log
     = ((None, Some (fmt_Errorf "begin method not implemented")), log).
Proof. split; reflexivity. Qed.

(** Both entry points make exactly one call, with the normalised arguments. *)
Lemma ExecContext_one_call c ctx query args log :
  snd (ExecContext sort_Slice remote c ctx query args log)
  = log ++ [request_of sort_Slice c ctx query args].
Proof.
  unfold ExecContext, callSqld. fold (request_of sort_Slice c ctx query args).
  destruct (remote log _) as [rs [e |]]; reflexivity.
Qed.

Lemma QueryContext_one_call c ctx query args log :
  snd (QueryContext sort_Slice remote c ctx query args log)
  = log ++ [request_of sort_Slice c ctx query args].
Proof.
  unfold QueryContext, callSqld. fold (request_of sort_Slice c ctx query args).
  destruct (remote log _) as [rs [e |]]; reflexivity.
Qed.

(** C6. For every context, query and argument list: when the collaborator
    answers with an error, [ExecContext] and [QueryContext] return no result
    object and that very error value, so whatever [errors.Is] tells of the
    collaborator's error it tells of the returned one; when the collaborator
    answers without an error, they return a result object and no error. *)
Theorem ExecContext_QueryContext_error c ctx query args log :
  let rq := request_of sort_Slice c ctx query args in
  (forall e,
     snd (remote log rq) = Some e ->
     fst (ExecContext sort_Slice remote c ctx query args log) = (None, Some e)
     /\ fst (QueryContext sort_Slice remote c ctx query args log) = (None, Some e)
     /\ forall err target,
          snd (fst (ExecContext sort_Slice remote c ctx query args log)) = Some err
          \/ snd (fst (QueryContext sort_Slice remote c ctx query args log)) = Some err ->
          errors_Is err target = errors_Is e target)
  /\ (snd (remote log rq) = None ->
      (exists res, fst (ExecContext sort_Slice remote c ctx query args log)
                   = (Some res, None))
      /\ (exists rws, fst (QueryContext sort_Slice remote c ctx query args log)
                      = (Some rws, None))).
Proof.
  intros rq. unfold ExecContext, QueryContext, callSqld.
  fold (request_of sort_Slice c ctx query args). fold rq.
  destruct (remote log rq) as [rs [e0 |]]; cbn [fst snd]; split.
  - intros e [= <-]. split; [reflexivity |]. split; [reflexivity |].
    intros err target [[= <-] | [= <-]]; reflexivity.
  - discriminate.
  - discriminate.
  - intros _. split; eexists; reflexivity.
Qed.

(** C7. For every call of [ExecContext] that the collaborator answers
    without an error, whatever the query, the arguments and the result set in
    the answer: the returned summary has last-inserted id 0 and rows-affected
    count 0, and reading either gives no error. *)
Theorem ExecContext_summary_zero c ctx query args log :
  snd (remote log (request_of sort_Slice c ctx query args)) = None ->
  exists res,
    fst (ExecContext sort_Slice remote c ctx query args log) = (Some res, None)
    /\ LastInsertId res = (0, None)
    /\ RowsAffected res = (0, None).
Proof.
  intros Hok. unfold ExecContext, callSqld.
  fold (request_of sort_Slice c ctx query args).
  destruct (remote log _) as [rs [e |]]; [discriminate |].
  eexists. split; [reflexivity |]. split; reflexivity.
Qed.

(** What [QueryContext] returns on success is the fresh cursor over the
    answer's result set. *)
Lemma QueryContext_cursor c ctx query args log rs :
  remote log (request_of sort_Slice c ctx query args) = (Some rs, None) ->
  fst (QueryContext sort_Slice remote c ctx query args log)
  = (Some (cursor_over rs), None).
Proof.
  intros Hok. unfold QueryContext, callSqld.
  fold (request_of sort_Slice c ctx query args). rewrite Hok. reflexivity.
Qed.

End ConnFacts.

Lemma ExecContext_QueryContext_error_witness :
  fst (ExecContext reference_sort cancelled_remote example_conn tt "SELECT 1" None [])
  = (None, Some (wrapped "Post" context_Canceled))
  /\ exists rws,
       fst (QueryContext reference_sort answering_remote example_conn tt "SELECT 1" None [])
       = (Some rws, None).
Proof.
  split.
  - apply (ExecContext_QueryContext_error unit reference_sort cancelled_remote
             example_conn tt "SELECT 1" None []).
    reflexivity.
  - apply (ExecContext_QueryContext_error unit reference_sort answering_remote
             example_conn tt "SELECT 1" None []).
    reflexivity.
Defined.

Lemma ExecContext_summary_zero_witness :
  exists res,
    fst (ExecContext reference_sort answering_remote example_conn tt
           "INSERT INTO t (a, b) VALUES (?, ?)" example_args [])
    = (Some res, None)
    /\ LastInsertId res = (0, None)
    /\ RowsAffected res = (0, None).
Proof.
  apply (ExecContext_summary_zero unit reference_sort answering_remote example_conn tt
           "INSERT INTO t (a, b) VALUES (?, ?)" example_args []).
  reflexivity.
Defined.

(** ** Which floats the cursor turns into integers *)

Section WholeFloats.

Lemma shl_align_value (m : positive) (e e' : Z) :
  e' <= e -> Zpos (fst (shl_align m e e')) = Zpos m * 2 ^ (e - e').
Proof.
  intros Hle. unfold shl_align.
  destruct (e' - e) as [| d | d] eqn:Hd; cbn [fst].
  - replace (e - e') with 0 by lia. rewrite Z.pow_0_r. lia.
  - lia.
  - replace (e - e') with (Zpos d) by lia.
    change (Pos.iter xO m d) with (shift_pos d m).
    rewrite shift_pos_correct. change (Z.pow_pos 2 d) with (2 ^ Zpos d). lia.
Qed.

(** The remainder modulo 1 of a finite float is zero exactly when the float
    is a whole number. *)
Lemma Mod_one_zero_iff s m e :
  Mod (S754_finite s m e) one = S754_zero s <-> is_whole (S754_finite s m e).
Proof.
  unfold Mod, one. cbv zeta.
  set (ez := Z.min e (-52)).
  rewrite (shl_align_value m e ez) by (subst ez; lia).
  rewrite (shl_align_value 4503599627370496 (-52) ez) by (subst ez; lia).
  change (Zpos 4503599627370496) with (2 ^ 52).
  rewrite <- Z.pow_add_r by (subst ez; lia).
  replace (52 + (-52 - ez)) with (- ez) by lia.
  assert (Hpos : 0 < 2 ^ (- ez)) by (apply Z.pow_pos_nonneg; subst ez; lia).
  assert (Hb : 0 <= e - ez) by (subst ez; lia).
  assert (Hiff : Z.rem (Zpos m * 2 ^ (e - ez)) (2 ^ (- ez)) = 0
                 <-> is_whole (S754_finite s m e)).
  { rewrite Z.rem_divide by lia. cbn [is_whole].
    destruct (Z.le_gt_cases 0 e) as [He | He].
    - split; [intros _; left; exact He | intros _].
      replace (e - ez) with (e + - ez) by lia.
      rewrite Z.pow_add_r by (subst ez; lia).
      apply Z.divide_mul_r, Z.divide_factor_r.
    - replace (- ez) with (- e + (e - ez)) by lia.
      rewrite Z.pow_add_r by lia.
      assert (H2 : 2 ^ (e - ez) <> 0) by (apply Z.pow_nonzero; lia).
      rewrite Z.mul_divide_cancel_r by exact H2.
      split; [intros H; right; exact H | intros [H | H]; [lia | exact H]]. }
  assert (Hnn : 0 <= Z.rem (Zpos m * 2 ^ (e - ez)) (2 ^ (- ez))).
  { apply Z.rem_nonneg; [lia |]. apply Z.mul_nonneg_nonneg; [lia |].
    apply Z.pow_nonneg. lia. }
  destruct (Z.rem (Zpos m * 2 ^ (e - ez)) (2 ^ (- ez))) as [| r | r] eqn:Hrem.
  - split; [intros _; apply Hiff; reflexivity | reflexivity].
  - split.
    + unfold exact. destruct (shl_align _ _ _). discriminate.
    + intros Hw. apply Hiff in Hw. discriminate.
  - lia.
Qed.

(** The test [math.Mod(v, 1) >= 0] holds exactly for the finite floats that
    do not have the sign bit set or are whole numbers. *)
Lemma ge_Mod_one_iff (v : float64) :
  f64_ge (Mod v one) pos_zero = true
  <-> (exists t, trunc v = Some t) /\ (sign_bit v = false \/ is_whole v).
Proof.
  destruct v as [s | s | | s m e].
  - cbn. split; [intros _; split; [eauto | right; exact I] | reflexivity].
  - cbn. split; [discriminate | intros [[t Ht] _]; discriminate].
  - cbn. split; [discriminate | intros [[t Ht] _]; discriminate].
  - rewrite ge_Mod_one_sign, Mod_one_zero_iff. cbn [sign_bit trunc].
    split; [intros H; split; [eauto | exact H] | intros [_ H]; exact H].
Qed.

End WholeFloats.

(** ** More on the row cursor *)

Section RowsMore.

Variable indefinite : float64 -> Z.

(** A cursor without a result set: the first dereference panics. *)
Lemma Next_nil r d :
  rows_result r = None ->
  Next indefinite (mkNextState r d) = (Panic nil_dereference, mkNextState r d).
Proof.
  intros Hnil. unfold Next, bind at 1, load_result. cbn [recv]. rewrite Hnil. reflexivity.
Qed.

(** The four situations a call of [Next] can find the cursor in. *)
Lemma cursor_cases (r : rows) :
  rows_result r = None
  \/ (exists rs, rows_result r = Some rs /\ currentRowIdx r = length (Rows rs))
  \/ (exists rs, rows_result r = Some rs /\ (length (Rows rs) < currentRowIdx r)%nat)
  \/ (exists rs row, rows_result r = Some rs /\ Rows rs !! currentRowIdx r = Some row).
Proof.
  destruct (rows_result r) as [rs |] eqn:Hrs; [| left; reflexivity].
  right. destruct (lt_eq_lt_dec (currentRowIdx r) (length (Rows rs))) as [[Hlt | Heq] | Hgt].
  - right; right. destruct (lookup_lt_is_Some_2 (Rows rs) (currentRowIdx r) Hlt) as [row Hrow].
    eauto.
  - left. eauto.
  - right; left. eauto.
Qed.

Lemma inserts_prefix {A} (k l : list A) :
  (length k <= length l)%nat -> list_inserts 0 k l = k ++ drop (length k) l.
Proof.
  intros Hle. rewrite <- (take_drop (length k) l) at 1.
  apply list_inserts_0_r. rewrite length_take. lia.
Qed.

Lemma inserts_overflow {A B} (f : A -> B) (k : list A) (l : list B) :
  (length l <= length k)%nat -> list_inserts 0 (f <$> k) l = f <$> take (length l) k.
Proof.
  intros Hle. apply list_eq. intros j.
  destruct (decide (j < length l)%nat) as [Hj | Hj].
  - rewrite list_lookup_inserts by (rewrite ?length_fmap; lia).
    rewrite Nat.sub_0_r, !list_lookup_fmap, lookup_take_lt by lia. reflexivity.
  - rewrite !lookup_ge_None_2; [reflexivity | |].
    + rewrite length_fmap, length_take. lia.
    + rewrite length_inserts. lia.
Qed.

(** X1. A call of [Next] never changes the length of the destination
    buffer and never writes at or beyond the cell count of the current row;
    when the cursor stands at no row (end of data, no result set, index out
    of range) it writes nothing at all. *)
Theorem Next_buffer_frame (r : rows) (d : list value) :
  let d' := dest (snd (Next indefinite (mkNextState r d))) in
  length d' = length d
  /\ (forall rs row j,
        rows_result r = Some rs ->
        Rows rs !! currentRowIdx r = Some row ->
        (length row <= j)%nat ->
        d' !! j = d !! j)
  /\ ((forall rs, rows_result r = Some rs -> Rows rs !! currentRowIdx r = None) ->
      d' = d).
Proof.
  cbv zeta.
  destruct (cursor_cases r) as [Hnil | [(rs & Hrs & Hend) | [(rs & Hrs & Hpast) | (rs & row & Hrs & Hrow)]]].
  - rewrite (Next_nil r d Hnil). cbn [snd dest].
    split; [reflexivity |]. split; [| reflexivity]. intros rs row j H. congruence.
  - rewrite (Next_at_end indefinite r rs d Hrs Hend). cbn [snd dest].
    split; [reflexivity |]. split; [| reflexivity].
    intros rs' row j H Hrow. assert (rs' = rs) as -> by congruence.
    apply lookup_lt_Some in Hrow. lia.
  - rewrite (Next_past_end indefinite r rs d Hrs Hpast). cbn [snd dest].
    split; [reflexivity |]. split; [| reflexivity].
    intros rs' row j H Hrow. assert (rs' = rs) as -> by congruence.
    apply lookup_lt_Some in Hrow. lia.
  - rewrite (Next_at_row indefinite r rs row d Hrs Hrow).
    assert (Hlen : length (list_inserts 0 (coerce indefinite <$> row) d) = length d)
      by apply length_inserts.
    assert (Hframe : forall j, (length row <= j)%nat ->
              list_inserts 0 (coerce indefinite <$> row) d !! j = d !! j).
    { intros j Hj. apply list_lookup_inserts_ge. rewrite length_fmap. lia. }
    case_decide; cbn [snd dest]; (split; [exact Hlen |]);
      (split;
       [ intros rs' row' j Hrs' Hrow' Hj;
         assert (rs' = rs) as -> by congruence;
         assert (row' = row) as -> by congruence; apply Hframe; exact Hj
       | intros Hnone; specialize (Hnone rs Hrs); congruence ]).
Qed.

(** X2. With a buffer shorter than the current row, [Next] panics with the
    buffer's length as the offending index, after overwriting the whole
    buffer with the coerced leading cells of the row; the cursor does not
    move, so a further call with a long enough buffer delivers that same
    row. *)
Theorem Next_short_buffer_retry r rs row d d2 :
  rows_result r = Some rs ->
  Rows rs !! currentRowIdx r = Some row ->
  (length d < length row)%nat ->
  wide_enough row d2 ->
  let call := Next indefinite (mkNextState r d) in
  fst call = Panic (index_out_of_range (length d) (length d))
  /\ recv (snd call) = r
  /\ dest (snd call) = coerce indefinite <$> take (length d) row
  /\ let again := Next indefinite (mkNextState (recv (snd call)) d2) in
     fst again = Return None
     /\ currentRowIdx (recv (snd again)) = S (currentRowIdx r)
     /\ dest (snd again) = (coerce indefinite <$> row) ++ drop (length row) d2.
Proof.
  intros Hrs Hrow Hshort Hwide. cbv zeta.
  rewrite (Next_at_row indefinite r rs row d Hrs Hrow).
  destruct (decide (wide_enough row d)) as [Hw | _]; [unfold wide_enough in Hw; lia |].
  cbn [fst snd recv dest].
  split; [reflexivity |]. split; [reflexivity |].
  split; [apply inserts_overflow; lia |].
  rewrite (Next_at_row indefinite r rs row d2 Hrs Hrow).
  destruct (decide (wide_enough row d2)) as [_ | Hno]; [| contradiction].
  cbn [fst snd recv dest currentRowIdx].
  split; [reflexivity |]. split; [reflexivity |].
  rewrite inserts_prefix by (rewrite length_fmap; exact Hwide).
  rewrite length_fmap. reflexivity.
Qed.

(** What a call does to the cursor, in every situation. *)
Lemma Next_step (r : rows) (d : list value) :
  let call := Next indefinite (mkNextState r d) in
  recv (snd call)
  = (if delivered call then mkRows (rows_result r) (S (currentRowIdx r)) else r)
  /\ (delivered call = true
      <-> exists rs row, rows_result r = Some rs
                         /\ Rows rs !! currentRowIdx r = Some row
                         /\ wide_enough row d).
Proof.
  cbv zeta. unfold delivered.
  destruct (cursor_cases r) as [Hnil | [(rs & Hrs & Hend) | [(rs & Hrs & Hpast) | (rs & row & Hrs & Hrow)]]].
  - rewrite (Next_nil r d Hnil). cbn [fst snd recv].
    split; [reflexivity |]. split; [discriminate | intros (rs & row & H & _); congruence].
  - rewrite (Next_at_end indefinite r rs d Hrs Hend). cbn [fst snd recv].
    split; [reflexivity |]. split; [discriminate |].
    intros (rs' & row & H & Hrow & _). assert (rs' = rs) as -> by congruence.
    apply lookup_lt_Some in Hrow. lia.
  - rewrite (Next_past_end indefinite r rs d Hrs Hpast). cbn [fst snd recv].
    split; [reflexivity |]. split; [discriminate |].
    intros (rs' & row & H & Hrow & _). assert (rs' = rs) as -> by congruence.
    apply lookup_lt_Some in Hrow. lia.
  - rewrite (Next_at_row indefinite r rs row d Hrs Hrow).
    case_decide as Hw; cbn [fst snd recv].
    + split; [rewrite Hrs; reflexivity |]. split; [intros _; eauto | reflexivity].
    + split; [reflexivity |]. split; [discriminate |].
      intros (rs' & row' & H & Hrow' & Hw').
      assert (rs' = rs) as -> by congruence.
      assert (row' = row) as -> by congruence. contradiction.
Qed.

(** X3. The cursor is forward-only: whatever state it is in and whatever
    buffer it is given, a call of [Next] leaves the row index where it was or
    one further, never writes the [result] pointer, and moves the index
    exactly when it returns nil, which it does exactly when the cursor
    stands at a row and the buffer is at least as long as that row. *)
Theorem Next_forward_only (r : rows) (d : list value) :
  let call := Next indefinite (mkNextState r d) in
  rows_result (recv (snd call)) = rows_result r
  /\ currentRowIdx (recv (snd call))
     = (currentRowIdx r + (if delivered call then 1 else 0))%nat
  /\ (delivered call = true
      <-> exists rs row, rows_result r = Some rs
                         /\ Rows rs !! currentRowIdx r = Some row
                         /\ wide_enough row d).
Proof.
  cbv zeta. destruct (Next_step r d) as [Hstep Hiff]. cbv zeta in Hstep, Hiff.
  rewrite Hstep. split; [| split; [| exact Hiff]].
  - destruct (delivered _); reflexivity.
  - destruct (delivered _); cbn [currentRowIdx]; lia.
Qed.

Lemma Next_calls_index (dests : list (list value)) :
  forall r,
    currentRowIdx (snd (Next_calls indefinite r dests))
    = (currentRowIdx r + deliveries (fst (Next_calls indefinite r dests)))%nat.
Proof.
  induction dests as [| d dests IH]; intros r.
  - cbn. lia.
  - cbn [Next_calls fst snd]. rewrite IH.
    destruct (Next_step r d) as [Hstep _]. cbv zeta in Hstep. rewrite Hstep.
    unfold deliveries. rewrite filter_cons.
    destruct (delivered (Next indefinite (mkNextState r d))) eqn:Hd.
    + rewrite decide_True by reflexivity. cbn [currentRowIdx length]. lia.
    + rewrite decide_False by discriminate. lia.
Qed.

Lemma reachable_Next_calls rs (dests : list (list value)) :
  forall r,
    reachable indefinite rs r ->
    reachable indefinite rs (snd (Next_calls indefinite r dests)).
Proof.
  induction dests as [| d dests IH]; intros r Hr; [exact Hr |].
  cbn [Next_calls snd]. apply IH. apply reachable_Next. exact Hr.
Qed.

(** X4. In every run of [Next] calls on a fresh cursor, whatever buffers
    the caller hands in and whether or not some calls panic, the row index
    at the end is the number of calls that returned nil, and that number is
    at most the number of rows: no row is delivered twice and none beyond
    the last. *)
Theorem Next_calls_count (rs : resultSet) (dests : list (list value)) :
  let run := Next_calls indefinite (cursor_over rs) dests in
  currentRowIdx (snd run) = deliveries (fst run)
  /\ (deliveries (fst run) <= length (Rows rs))%nat
  /\ (deliveries (fst run) <= length dests)%nat.
Proof.
  cbv zeta.
  pose proof (Next_calls_index dests (cursor_over rs)) as Hidx. cbn in Hidx.
  pose proof (reachable_Next_calls rs dests _ (reachable_fresh indefinite rs)) as Hreach.
  apply reachable_inv in Hreach as [_ Hle].
  split; [exact Hidx |]. split; [lia |].
  unfold deliveries. etransitivity; [apply length_filter |].
  clear. generalize (cursor_over rs). induction dests as [| d dests IH]; intros r.
  - reflexivity.
  - cbn [Next_calls fst length]. specialize (IH (recv (snd (Next indefinite (mkNextState r d))))). lia.
Qed.

(** X5. The only error [Next] ever returns is [io.EOF], and it returns it
    exactly when the row index equals the number of rows; the cursor and the
    buffer are then left as they were. *)
Theorem Next_error_is_EOF (r : rows) (d : list value) (e : error) :
  fst (Next indefinite (mkNextState r d)) = Return (Some e)
  <-> e = io_EOF
      /\ snd (Next indefinite (mkNextState r d)) = mkNextState r d
      /\ exists rs, rows_result r = Some rs /\ currentRowIdx r = length (Rows rs).
Proof.
  destruct (cursor_cases r) as [Hnil | [(rs & Hrs & Hend) | [(rs & Hrs & Hpast) | (rs & row & Hrs & Hrow)]]].
  - rewrite (Next_nil r d Hnil). cbn [fst snd].
    split; [discriminate | intros (_ & _ & rs & H & _); congruence].
  - rewrite (Next_at_end indefinite r rs d Hrs Hend). cbn [fst snd].
    split; [intros [= <-]; eauto | intros (-> & _); reflexivity].
  - rewrite (Next_past_end indefinite r rs d Hrs Hpast). cbn [fst snd].
    split; [discriminate |]. intros (_ & _ & rs' & H & Hidx).
    assert (rs' = rs) as -> by congruence. lia.
  - apply lookup_lt_Some in Hrow as Hlt.
    rewrite (Next_at_row indefinite r rs row d Hrs Hrow).
    case_decide as Hw; cbn [fst snd]; (split; [discriminate |]).
    all: intros (_ & _ & rs' & Hrs' & Hidx); assert (rs' = rs) as -> by congruence; lia.
Qed.

End RowsMore.

(** ** Float cells *)

Section FloatCells.

Variable indefinite : float64 -> Z.

Lemma cell_after_coerce r d i c :
  at_cell r d i c -> cell_after indefinite r d i = Some (coerce indefinite c).
Proof.
  intros (rs & row & Hrs & Hrow & Hc & Hi).
  exact (Next_dest_lookup indefinite r rs row d i c Hrs Hrow Hc Hi).
Qed.

Lemma at_cell_one_cell (c : value) : at_cell (one_cell c) [VNil] 0 c.
Proof.
  exists (mkResultSet ["c"%string] [[c]]), [c].
  repeat split; simpl; lia.
Qed.

(** X6. A float64 cell is delivered as an integer exactly when the float is
    finite and either has no sign bit or is a whole number; every other
    float (NaN, the infinities, and the negative floats with a fractional
    part) is delivered as the float it is. *)
Theorem Next_float64_integer_iff r d i (v : float64) :
  at_cell r d i (VFloat64 v) ->
  let becomes_integer :=
    (exists t, trunc v = Some t) /\ (sign_bit v = false \/ is_whole v) in
  (becomes_integer
   <-> cell_after indefinite r d i = Some (VInt64 (to_int64 indefinite v)))
  /\ (~ becomes_integer <-> cell_after indefinite r d i = Some (VFloat64 v)).
Proof.
  intros Hcell. cbv zeta. rewrite (cell_after_coerce r d i _ Hcell).
  cbn [coerce]. rewrite <- ge_Mod_one_iff.
  destruct (f64_ge (Mod v one) pos_zero); split; split;
    try reflexivity; try discriminate; try congruence; intros H; exfalso; auto.
Qed.

(** X7. A float64 cell without sign bit that has a fractional part is
    delivered as the integer just below it, when that fits in 64 bits: the
    fraction is lost. *)
Theorem Next_positive_fraction_lost r d i (m : positive) (e : Z) :
  at_cell r d i (VFloat64 (S754_finite false m e)) ->
  ~ is_whole (S754_finite false m e) ->
  fits_int64 (Zpos m / 2 ^ (- e)) = true ->
  exists t,
    cell_after indefinite r d i = Some (VInt64 t)
    /\ 0 <= t
    /\ t * 2 ^ (- e) < Zpos m < (t + 1) * 2 ^ (- e).
Proof.
  intros Hcell Hfrac Hfits.
  assert (He : e < 0) by (cbn [is_whole] in Hfrac; lia).
  assert (Hndiv : ~ (2 ^ (- e) | Zpos m)) by (cbn [is_whole] in Hfrac; tauto).
  assert (Hpow : 0 < 2 ^ (- e)) by (apply Z.pow_pos_nonneg; lia).
  assert (Htrunc : trunc (S754_finite false m e) = Some (Zpos m / 2 ^ (- e))).
  { rewrite trunc_finite. destruct (Z.leb_spec 0 e); [lia | reflexivity]. }
  exists (Zpos m / 2 ^ (- e)).
  rewrite (cell_after_coerce r d i _ Hcell). cbn [coerce].
  rewrite ge_Mod_one_nonneg, (to_int64_fits indefinite _ _ Htrunc Hfits).
  split; [reflexivity |].
  split; [apply Z.div_pos; lia |].
  pose proof (Z.mul_div_le (Zpos m) (2 ^ (- e)) Hpow) as Hlo.
  pose proof (Z.mul_succ_div_gt (Zpos m) (2 ^ (- e)) Hpow) as Hhi.
  assert (Hne : Zpos m / 2 ^ (- e) * 2 ^ (- e) <> Zpos m).
  { intros Heq. apply Hndiv. exists (Zpos m / 2 ^ (- e)). lia. }
  lia.
Qed.

(** X8. A float64 cell that is a whole number, of either sign, is delivered
    as exactly that number when it fits in 64 bits: nothing is lost. *)
Theorem Next_whole_float_exact r d i (s : bool) (m : positive) (e : Z) (t : Z) :
  at_cell r d i (VFloat64 (S754_finite s m e)) ->
  is_whole (S754_finite s m e) ->
  trunc (S754_finite s m e) = Some t ->
  fits_int64 t = true ->
  cell_after indefinite r d i = Some (VInt64 t)
  /\ t * 2 ^ Z.max 0 (- e) = cond_Zopp s (Zpos m) * 2 ^ Z.max 0 e.
Proof.
  intros Hcell Hwhole Htrunc Hfits.
  rewrite (cell_after_coerce r d i _ Hcell). cbn [coerce].
  assert (Hge : f64_ge (Mod (S754_finite s m e) one) pos_zero = true).
  { apply ge_Mod_one_iff. split; [eauto | right; exact Hwhole]. }
  rewrite Hge, (to_int64_fits indefinite _ _ Htrunc Hfits).
  split; [reflexivity |].
  rewrite trunc_finite in Htrunc. injection Htrunc as <-.
  destruct (Z.leb_spec 0 e) as [He | He].
  - rewrite Z.max_l, Z.max_r by lia. rewrite Z.pow_0_r.
    destruct s; cbn [cond_Zopp]; lia.
  - rewrite Z.max_r, Z.max_l by lia. rewrite Z.pow_0_r.
    cbn [is_whole] in Hwhole. destruct Hwhole as [Hbad | [q Hq]]; [lia |].
    assert (Hpow : 0 < 2 ^ (- e)) by (apply Z.pow_pos_nonneg; lia).
    rewrite Hq, Z.div_mul by lia.
    destruct s; cbn [cond_Zopp]; lia.
Qed.

(** X9. A float64 cell without sign bit whose integer part is above the
    largest 64-bit integer is still delivered as an integer: the one the
    platform's conversion gives for a value out of range. *)
Theorem Next_float64_out_of_range r d i (m : positive) (e : Z) :
  at_cell r d i (VFloat64 (S754_finite false m e)) ->
  max_int64 < Z.shiftl (Zpos m) e ->
  cell_after indefinite r d i
  = Some (VInt64 (indefinite (S754_finite false m e))).
Proof.
  intros Hcell Hbig.
  rewrite (cell_after_coerce r d i _ Hcell). cbn [coerce].
  rewrite ge_Mod_one_nonneg. unfold to_int64, trunc, fits_int64. cbn [cond_Zopp].
  replace (Z.shiftl (Zpos m) e <=? max_int64) with false
    by (symmetry; apply Z.leb_gt; exact Hbig).
  rewrite andb_false_r. reflexivity.
Qed.

End FloatCells.

Lemma Next_short_buffer_retry_witness :
  let r := mkRows (Some two_rows) 0 in
  let call := Next indefinite_amd64 (mkNextState r [VNil]) in
  fst call = Panic (index_out_of_range 1 1)
  /\ recv (snd call) = r
  /\ dest (snd call) = [VInt64 3]
  /\ let again := Next indefinite_amd64 (mkNextState (recv (snd call)) [VNil; VNil; VBool true]) in
     fst again = Return None
     /\ currentRowIdx (recv (snd again)) = 1%nat
     /\ dest (snd again) = [VInt64 3; VString "x"; VBool true].
Proof.
  apply (Next_short_buffer_retry indefinite_amd64 (mkRows (Some two_rows) 0) two_rows
           [VFloat64 f_3_14; VString "x"] [VNil] [VNil; VNil; VBool true]).
  - reflexivity.
  - reflexivity.
  - simpl. lia.
  - unfold wide_enough. simpl. lia.
Defined.

Lemma Next_float64_integer_iff_witness :
  cell_after indefinite_amd64 (one_cell (VFloat64 f_m3)) [VNil] 0 = Some (VInt64 (-3))
  /\ cell_after indefinite_amd64 (one_cell (VFloat64 f_m2_75)) [VNil] 0
     = Some (VFloat64 f_m2_75).
Proof.
  split.
  - apply (Next_float64_integer_iff indefinite_amd64 (one_cell (VFloat64 f_m3)) [VNil] 0 f_m3
             (at_cell_one_cell _)).
    split; [eexists; reflexivity |]. right. right. exists 3. reflexivity.
  - apply (Next_float64_integer_iff indefinite_amd64 (one_cell (VFloat64 f_m2_75)) [VNil] 0
             f_m2_75 (at_cell_one_cell _)).
    intros [_ [Hs | [He | [q Hq]]]]; [discriminate | lia |].
    change (2 ^ (- -51)) with 2251799813685248 in Hq. lia.
Defined.

Lemma Next_positive_fraction_lost_witness :
  exists t,
    cell_after indefinite_amd64 (one_cell (VFloat64 f_3_14)) [VNil] 0 = Some (VInt64 t)
    /\ 0 <= t
    /\ t * 2 ^ 51 < 7070651414971679 < (t + 1) * 2 ^ 51.
Proof.
  apply (Next_positive_fraction_lost indefinite_amd64 (one_cell (VFloat64 f_3_14)) [VNil] 0
           7070651414971679 (-51) (at_cell_one_cell _)).
  - intros [He | [q Hq]]; [lia |].
    change (2 ^ (- -51)) with 2251799813685248 in Hq. lia.
  - vm_compute. reflexivity.
Defined.

Lemma Next_whole_float_exact_witness :
  cell_after indefinite_amd64 (one_cell (VFloat64 f_m3)) [VNil] 0 = Some (VInt64 (-3))
  /\ -3 * 2 ^ 51 = - 6755399441055744 * 2 ^ 0.
Proof.
  apply (Next_whole_float_exact indefinite_amd64 (one_cell (VFloat64 f_m3)) [VNil] 0
           true 6755399441055744 (-51) (-3) (at_cell_one_cell _)).
  - right. exists 3. reflexivity.
  - vm_compute. reflexivity.
  - vm_compute. reflexivity.
Defined.

Lemma Next_float64_out_of_range_witness :
  cell_after indefinite_amd64 (one_cell (VFloat64 f_1e300)) [VNil] 0
  = Some (VInt64 min_int64).
Proof.
  apply (Next_float64_out_of_range indefinite_amd64 (one_cell (VFloat64 f_1e300)) [VNil] 0
           6724873095247260 944 (at_cell_one_cell _)).
  vm_compute. reflexivity.
Defined.

(** ** More on parameter normalisation *)

Lemma slice_eq {T : Type} (s1 s2 : slice T) :
  Slice.elems s1 = Slice.elems s2 -> Slice.is_nil s1 = Slice.is_nil s2 -> s1 = s2.
Proof.
  destruct s1 as [l1 |], s2 as [l2 |]; cbn; intros He Hn;
    try discriminate; congruence.
Qed.

Lemma filter_all {T : Type} (P : T -> Prop) `{forall x, Decision (P x)} (l : list T) :
  Forall P l -> filter P l = l.
Proof.
  induction 1 as [| x l Hx _ IH]; [reflexivity |].
  rewrite filter_cons, decide_True by exact Hx. rewrite IH. reflexivity.
Qed.

Lemma filter_none {T : Type} (P : T -> Prop) `{forall x, Decision (P x)} (l : list T) :
  filter P l = [] <-> Forall (fun x => ~ P x) l.
Proof.
  induction l as [| x l IH]; [split; [constructor | reflexivity] |].
  rewrite filter_cons. destruct (decide (P x)) as [Hx | Hx].
  - split; [discriminate | intros HF; inversion HF; contradiction].
  - rewrite IH. split; [intros HF; constructor; assumption | intros HF; inversion HF; assumption].
Qed.

Lemma not_after_Ordinal_le (a b : NamedValue) :
  not_after less_Ordinal a b -> Ordinal a <= Ordinal b.
Proof. unfold not_after, less_Ordinal. intros H. apply Z.ltb_ge in H. exact H. Qed.

Section ConvertArgsMore.

Variable sort_Slice : forall A : Type, list A -> (A -> A -> bool) -> list A.

Hypothesis sort_Slice_Permutation :
  forall A (l : list A) less, sort_Slice A l less ≡ₚ l.
Hypothesis sort_Slice_sorted :
  forall A (l : list A) less,
    StrictWeakOrder less -> sorted_by less (sort_Slice A l less).

(** The shape of the result for every argument list, empty or not, with or
    without equal ordinals. *)
Lemma convertArgs_form (args : slice NamedValue) :
  let ps := convertArgs sort_Slice args in
  exists sorted : list NamedValue,
    sorted ≡ₚ Slice.elems args
    /\ sorted_by less_Ordinal sorted
    /\ Slice.elems (Values ps) = Value <$> sorted
    /\ Slice.elems (Names ps) = filter named (Name <$> sorted)
    /\ Slice.is_nil (Names ps) = bool_decide (filter named (Name <$> sorted) = [])
    /\ Slice.is_nil (Values ps) = bool_decide (sorted = []).
Proof.
  cbv zeta. destruct (decide (Slice.len args = 0%nat)) as [Hlen | Hlen].
  - rewrite (convertArgs_empty sort_Slice args Hlen).
    apply nil_length_inv in Hlen. rewrite Hlen.
    exists []. repeat split; try reflexivity. constructor.
  - destruct args as [[| a l] |]; try (exfalso; apply Hlen; reflexivity).
    destruct (convertArgs_nonempty sort_Slice sort_Slice_Permutation a l) as (Hn & Hv & Hnil).
    cbv zeta in Hn, Hv, Hnil.
    set (sorted := sort_Slice NamedValue (a :: l) less_Ordinal) in *.
    assert (Hperm : sorted ≡ₚ a :: l) by apply sort_Slice_Permutation.
    exists sorted. rewrite elems_Some.
    split; [exact Hperm |].
    split; [apply sort_Slice_sorted, less_Ordinal_swo |].
    split; [rewrite Hv; reflexivity |].
    split; [exact Hn |]. split; [exact Hnil |].
    rewrite Hv. cbn [Slice.is_nil]. symmetry. apply bool_decide_eq_false.
    intros Heq. rewrite Heq in Hperm. apply Permutation_nil_cons in Hperm. exact Hperm.
Qed.

(** X10. The order in which the caller lists the arguments does not
    matter: two argument lists with the same entries and pairwise-distinct
    ordinals give the same ParameterSet, nil-ness of the lists included. *)
Theorem convertArgs_order_independent (args1 args2 : slice NamedValue) :
  Slice.elems args1 ≡ₚ Slice.elems args2 ->
  NoDup (Ordinal <$> Slice.elems args1) ->
  convertArgs sort_Slice args1 = convertArgs sort_Slice args2.
Proof.
  intros Hperm Hnd.
  destruct (convertArgs_form args1) as (s1 & Hp1 & Hs1 & Hv1 & Hn1 & Hnn1 & Hvn1).
  destruct (convertArgs_form args2) as (s2 & Hp2 & Hs2 & Hv2 & Hn2 & Hnn2 & Hvn2).
  cbv zeta in *.
  assert (Heq : s1 = s2).
  { apply ascending_unique.
    - apply sorted_by_Ordinal_strict; [rewrite Hp1; exact Hnd | exact Hs1].
    - apply sorted_by_Ordinal_strict; [rewrite Hp2, <- Hperm; exact Hnd | exact Hs2].
    - rewrite Hp1, Hp2. exact Hperm. }
  subst s2.
  destruct (convertArgs sort_Slice args1) as [n1 v1].
  destruct (convertArgs sort_Slice args2) as [n2 v2].
  cbn [Names Values] in *.
  f_equal; apply slice_eq; congruence.
Qed.

(** X11. Whatever the ordinals, equal ones included, no argument is lost
    or duplicated: the values list is a rearrangement of the arguments'
    values, in an order in which the ordinals never decrease, and the names
    list is a rearrangement of the non-empty names. *)
Theorem convertArgs_keeps_every_value (args : slice NamedValue) :
  let ps := convertArgs sort_Slice args in
  Slice.elems (Values ps) ≡ₚ Value <$> Slice.elems args
  /\ Slice.elems (Names ps) ≡ₚ filter named (Name <$> Slice.elems args)
  /\ exists sorted : list NamedValue,
       sorted ≡ₚ Slice.elems args
       /\ StronglySorted Z.le (Ordinal <$> sorted)
       /\ Slice.elems (Values ps) = Value <$> sorted
       /\ Slice.elems (Names ps) = filter named (Name <$> sorted).
Proof.
  destruct (convertArgs_form args) as (sorted & Hp & Hs & Hv & Hn & _ & _).
  cbv zeta in *.
  split; [rewrite Hv, Hp; reflexivity |].
  split; [rewrite Hn, Hp; reflexivity |].
  exists sorted. split; [exact Hp |]. split; [| split; assumption].
  eapply StronglySorted_fmap; [| exact Hs]. apply not_after_Ordinal_le.
Qed.

(** X12. The names list has one entry per argument with a non-empty name,
    so it is never longer than the values list, which has one entry per
    argument; and the names list is nil exactly when no argument has a
    name. *)
Theorem convertArgs_names_count (args : slice NamedValue) :
  let ps := convertArgs sort_Slice args in
  Slice.len (Names ps) = length (filter named (Name <$> Slice.elems args))
  /\ (Slice.len (Names ps) <= Slice.len (Values ps))%nat
  /\ Slice.len (Values ps) = Slice.len args
  /\ (Slice.is_nil (Names ps) = true
      <-> Forall (fun a => Name a = EmptyString) (Slice.elems args)).
Proof.
  destruct (convertArgs_form args) as (sorted & Hp & _ & Hv & Hn & Hnil & _).
  cbv zeta in *. unfold Slice.len. rewrite Hv, Hn, Hnil.
  assert (Hnames : filter named (Name <$> sorted)
                   ≡ₚ filter named (Name <$> Slice.elems args))
    by (rewrite Hp; reflexivity).
  split; [apply Permutation_length; exact Hnames |].
  split; [rewrite length_fmap; etransitivity; [apply length_filter |];
          rewrite length_fmap; reflexivity |].
  split; [rewrite length_fmap; apply Permutation_length; exact Hp |].
  rewrite bool_decide_eq_true.
  transitivity (filter named (Name <$> Slice.elems args) = []).
  - split; intros H0; rewrite H0 in Hnames.
    + apply Permutation_nil_l in Hnames. symmetry. exact Hnames.
    + apply Permutation_nil_r in Hnames. exact Hnames.
  - rewrite filter_none, Forall_fmap. apply Forall_iff. intros a. unfold named. cbn.
    destruct (decide (Name a = EmptyString)); tauto.
Qed.

(** X13. When every argument has a name and the ordinals are pairwise
    distinct, the names list and the values list are parallel: both follow
    the ascending order of ordinals, and the name and the value found at one
    position belong to one and the same argument. *)
Theorem convertArgs_named_parallel (args : slice NamedValue) :
  Forall (fun a => named (Name a)) (Slice.elems args) ->
  NoDup (Ordinal <$> Slice.elems args) ->
  let ps := convertArgs sort_Slice args in
  exists sorted : list NamedValue,
    sorted ≡ₚ Slice.elems args
    /\ StronglySorted Ordinal_lt sorted
    /\ Slice.elems (Names ps) = Name <$> sorted
    /\ Slice.elems (Values ps) = Value <$> sorted
    /\ forall i n v,
         Slice.elems (Names ps) !! i = Some n ->
         Slice.elems (Values ps) !! i = Some v ->
         exists a, a ∈ Slice.elems args /\ Name a = n /\ Value a = v.
Proof.
  intros Hnamed Hnd.
  destruct (convertArgs_form args) as (sorted & Hp & Hs & Hv & Hn & _ & _).
  cbv zeta in *.
  assert (Hall : filter named (Name <$> sorted) = Name <$> sorted).
  { apply filter_all. rewrite Forall_fmap, Hp. exact Hnamed. }
  rewrite Hall in Hn.
  exists sorted. split; [exact Hp |].
  split; [apply sorted_by_Ordinal_strict; [rewrite Hp; exact Hnd | exact Hs] |].
  split; [exact Hn |]. split; [exact Hv |].
  intros i n v Hi Hj. rewrite Hn, list_lookup_fmap in Hi. rewrite Hv, list_lookup_fmap in Hj.
  destruct (sorted !! i) as [a |] eqn:Ha; [| discriminate].
  cbn in Hi, Hj. exists a. split; [| split; congruence].
  rewrite <- Hp. apply list_elem_of_lookup. eauto.
Qed.

End ConvertArgsMore.

Lemma convertArgs_order_independent_witness :
  convertArgs reference_sort example_args = convertArgs reference_sort example_args_swapped.
Proof.
  apply (convertArgs_order_independent reference_sort
           (fun A l less => reference_sort_Permutation less l)
           (fun A l less Hswo => reference_sort_sorted less Hswo l)
           example_args example_args_swapped).
  - apply Permutation_swap.
  - apply (bool_decide_unpack _). vm_compute. exact I.
Defined.

Lemma convertArgs_keeps_every_value_witness :
  Slice.elems (Values (convertArgs reference_sort example_args))
  ≡ₚ Value <$> Slice.elems example_args.
Proof.
  apply (convertArgs_keeps_every_value reference_sort
           (fun A l less => reference_sort_Permutation less l)
           (fun A l less Hswo => reference_sort_sorted less Hswo l)
           example_args).
Defined.

Lemma convertArgs_names_count_witness :
  Slice.len (Names (convertArgs reference_sort example_args)) = 1%nat
  /\ (Slice.len (Names (convertArgs reference_sort example_args))
      <= Slice.len (Values (convertArgs reference_sort example_args)))%nat.
Proof.
  split.
  - apply (convertArgs_names_count reference_sort
             (fun A l less => reference_sort_Permutation less l)
             (fun A l less Hswo => reference_sort_sorted less Hswo l)
             example_args).
  - apply (convertArgs_names_count reference_sort
             (fun A l less => reference_sort_Permutation less l)
             (fun A l less Hswo => reference_sort_sorted less Hswo l)
             example_args).
Defined.

Lemma convertArgs_named_parallel_witness :
  exists sorted : list NamedValue,
    sorted ≡ₚ Slice.elems named_args
    /\ StronglySorted Ordinal_lt sorted
    /\ Slice.elems (Names (convertArgs reference_sort named_args)) = Name <$> sorted
    /\ Slice.elems (Values (convertArgs reference_sort named_args)) = Value <$> sorted
    /\ forall i n v,
         Slice.elems (Names (convertArgs reference_sort named_args)) !! i = Some n ->
         Slice.elems (Values (convertArgs reference_sort named_args)) !! i = Some v ->
         exists a, a ∈ Slice.elems named_args /\ Name a = n /\ Value a = v.
Proof.
  apply (convertArgs_named_parallel reference_sort
           (fun A l less => reference_sort_Permutation less l)
           (fun A l less Hswo => reference_sort_sorted less Hswo l)
           named_args).
  - repeat constructor; discriminate.
  - apply (bool_decide_unpack _). vm_compute. exact I.
Defined.

(** ** From the connection to the rows *)

Section ConnMore.

Variable Ctx : Type.
Variable sort_Slice : forall A : Type, list A -> (A -> A -> bool) -> list A.
Variable remote : list (request Ctx) -> request Ctx -> option resultSet * option error.
Variable indefinite : float64 -> Z.

Lemma served_buffers (rs : resultSet) :
  forall (rws dests : list (list value)) k,
    Forall2 (fun row d => length d = length row) rws dests ->
    dest <$> zip_with (fun i '(row, d) =>
                         mkNextState (mkRows (Some rs) (S i))
                                     (list_inserts 0 (coerce indefinite <$> row) d))
                      (seq k (length dests)) (zip rws dests)
    = (fun row : list value => coerce indefinite <$> row) <$> rws.
Proof.
  intros rws dests k Hall. revert k.
  induction Hall as [| row d rws dests Hlen _ IH]; intros k; [reflexivity |].
  cbn. rewrite IH. f_equal.
  rewrite inserts_prefix by (rewrite length_fmap; lia).
  rewrite drop_ge by (rewrite length_fmap; lia). apply app_nil_r.
Qed.

(** X14. When the collaborator answers a query with a result set,
    [QueryContext] returns a cursor whose [Columns()] are the answer's
    columns and whose [Next] calls, each with a buffer as long as the row it
    receives, deliver the rows of the answer in their order, every cell
    coerced, the call after the last row returning [io.EOF] and leaving its
    buffer alone. *)
Theorem QueryContext_then_Next c ctx query args log rs dests d_last :
  remote log (request_of sort_Slice c ctx query args) = (Some rs, None) ->
  Forall2 (fun row d => length d = length row) (Rows rs) dests ->
  exists cur,
    fst (QueryContext sort_Slice remote c ctx query args log) = (Some cur, None)
    /\ rows_Columns cur = Return (Columns rs)
    /\ let run := Next_calls indefinite cur (dests ++ [d_last]) in
       fst <$> fst run
         = replicate (length (Rows rs)) (Return None) ++ [Return (Some io_EOF)]
       /\ dest <$> (snd <$> fst run)
         = ((fun row : list value => coerce indefinite <$> row) <$> Rows rs) ++ [d_last].
Proof.
  intros Hreply Hbuf.
  exists (cursor_over rs).
  split; [exact (QueryContext_cursor Ctx sort_Slice remote c ctx query args log rs Hreply) |].
  split; [reflexivity |].
  assert (Hwide : Forall2 wide_enough (drop 0 (Rows rs)) dests).
  { rewrite drop_0. eapply Forall2_impl; [exact Hbuf |].
    intros row d Hlen. cbn beta in Hlen. unfold wide_enough. lia. }
  destruct (Next_calls_from indefinite rs [d_last] dests 0 ltac:(lia) Hwide)
    as (Ho & Hs & _).
  cbv zeta. unfold cursor_over. rewrite Ho, Hs, drop_0.
  rewrite (Forall2_length _ _ _ Hbuf).
  split; [reflexivity |].
  rewrite fmap_app, served_buffers by exact Hbuf. reflexivity.
Qed.

(** X15. [QueryContext] does not look at the result set it is handed: when
    the collaborator answers with neither an error nor a result set, it
    still returns a cursor and no error, and on that cursor [Columns()] and
    every call of [Next] panic on the nil pointer. *)
Theorem QueryContext_nil_result c ctx query args log :
  remote log (request_of sort_Slice c ctx query args) = (None, None) ->
  exists cur,
    fst (QueryContext sort_Slice remote c ctx query args log) = (Some cur, None)
    /\ rows_Columns cur = Panic nil_dereference
    /\ forall d,
         Next indefinite (mkNextState cur d) = (Panic nil_dereference, mkNextState cur d).
Proof.
  intros Hreply. exists (mkRows None 0).
  split; [| split; [reflexivity | intros d; apply Next_nil; reflexivity]].
  unfold QueryContext, callSqld.
  fold (request_of sort_Slice c ctx query args). rewrite Hreply. reflexivity.
Qed.

(** X16. The connection keeps nothing between calls: an [ExecContext]
    followed by a [QueryContext] makes exactly two calls to the collaborator,
    one each and in that order, whether or not the first one failed; each
    carries the connection's URL and token, its own query and its own
    normalised arguments, and each entry point reports the error of its own
    call. *)
Theorem ExecContext_then_QueryContext c ctx1 query1 args1 ctx2 query2 args2 log :
  let rq1 := mkRequest ctx1 (url c) (jwt c) query1 (convertArgs sort_Slice args1) in
  let rq2 := mkRequest ctx2 (url c) (jwt c) query2 (convertArgs sort_Slice args2) in
  let first := ExecContext sort_Slice remote c ctx1 query1 args1 log in
  let second := QueryContext sort_Slice remote c ctx2 query2 args2 (snd first) in
  snd first = log ++ [rq1]
  /\ snd second = log ++ [rq1; rq2]
  /\ snd (fst first) = snd (remote log rq1)
  /\ snd (fst second) = snd (remote (log ++ [rq1]) rq2).
Proof.
  cbv zeta.
  rewrite (ExecContext_one_call Ctx sort_Slice remote c ctx1 query1 args1 log).
  rewrite (QueryContext_one_call Ctx sort_Slice remote c ctx2 query2 args2).
  unfold request_of. rewrite <- app_assoc. cbn [app].
  split; [reflexivity |]. split; [reflexivity |].
  unfold ExecContext, QueryContext, callSqld.
  destruct (remote log _) as [rs1 [e1 |]];
    destruct (remote (log ++ _) _) as [rs2 [e2 |]]; split; reflexivity.
Qed.

End ConnMore.

Lemma QueryContext_then_Next_witness :
  exists cur,
    fst (QueryContext reference_sort two_rows_remote example_conn tt "SELECT a, b FROM t" None [])
    = (Some cur, None)
    /\ rows_Columns cur = Return ["a"; "b"]%string
    /\ let run := Next_calls indefinite_amd64 cur ([[VNil; VNil]; [VNil; VNil]] ++ [[VNil]]) in
       fst <$> fst run = [Return None; Return None; Return (Some io_EOF)]
       /\ dest <$> (snd <$> fst run)
          = [[VInt64 3; VString "x"]; [VInt64 2; VNil]; [VNil]].
Proof.
  apply (QueryContext_then_Next unit reference_sort two_rows_remote indefinite_amd64
           example_conn tt "SELECT a, b FROM t" None [] two_rows
           [[VNil; VNil]; [VNil; VNil]] [VNil]).
  - reflexivity.
  - repeat constructor.
Defined.

Lemma QueryContext_nil_result_witness :
  exists cur,
    fst (QueryContext reference_sort silent_remote example_conn tt "SELECT 1" None [])
    = (Some cur, None)
    /\ rows_Columns cur = Panic nil_dereference
    /\ forall d,
         Next indefinite_amd64 (mkNextState cur d)
         = (Panic nil_dereference, mkNextState cur d).
Proof.
  apply (QueryContext_nil_result unit reference_sort silent_remote indefinite_amd64
           example_conn tt "SELECT 1" None []).
  reflexivity.
Defined.
